(** * rain: peer wire protocol and transfer supervisor

    A shallow embedding of the peer connection (message loop [run],
    [beInterested], [downloadPiece]) and of the transfer supervisor
    ([Downloaded], [Left], the peer-address queue of [Run]), with the
    properties of the specification stated over it.

    Conventions.
    - A [uint32] is a [Z] kept in [0, 2^32) by [wrap32]; an [int64] is a
      [Z] kept in [-2^63, 2^63) by [wrap_int64].
    - A byte is a [Byte.byte]; [byteZ] gives its value.
    - The read side of a [net.Conn] is the list of segments that are still
      to arrive, in wire order.  [binary.Read] is [io.ReadFull]: it gathers
      bytes across segments.  A single [Read] call returns what the first
      segment holds, at most the size of the buffer.
    - Channel sends, log output and allocations of the message loop are
      recorded in an effect trace. *)

From Stdlib Require Import ZArith List String Bool Lia.
From Stdlib.Strings Require Import Byte.
From stdpp Require Import base tactics option list.
Import ListNotations.

Local Open Scope Z_scope.

(** ** Machine integers and bytes *)

Definition wrap32 (z : Z) : Z := z mod 2 ^ 32.

Definition wrap_int64 (z : Z) : Z := (z + 2 ^ 63) mod 2 ^ 64 - 2 ^ 63.

Definition byteZ (b : byte) : Z := Z.of_N (Byte.to_N b).

Definition byte_of_Z (z : Z) : byte :=
  match Byte.of_N (Z.to_N (z mod 256)) with
  | Some b => b
  | None => x00
  end.

(** [binary.BigEndian.Uint32] *)
Definition be32 (bs : list byte) : Z :=
  match bs with
  | [b0; b1; b2; b3] =>
      ((byteZ b0 * 256 + byteZ b1) * 256 + byteZ b2) * 256 + byteZ b3
  | _ => 0
  end.

(** [binary.BigEndian.PutUint32] *)
Definition put32 (v : Z) : list byte :=
  [byte_of_Z (v / 2 ^ 24); byte_of_Z (v / 2 ^ 16); byte_of_Z (v / 2 ^ 8); byte_of_Z v].

(** [binary.BigEndian.PutUint64] *)
Definition put64 (v : Z) : list byte :=
  put32 (v / 2 ^ 32) ++ put32 v.

(** ** Errors and results *)

(** The [error] values the code handles: the two end-of-stream errors of
    package [io], an error of the transport or of a file (deadline
    exceeded, connection reset, disk full, ...), and [errors.New] or a
    logged message. *)
Inductive error : Type :=
  | EOF
  | ErrUnexpectedEOF
  | ErrTransport (descr : string)
  | ErrNew (msg : string).

(** [err.Error()] *)
Definition Error (e : error) : string :=
  match e with
  | EOF => "EOF"
  | ErrUnexpectedEOF => "unexpected EOF"
  | ErrTransport s => s
  | ErrNew s => s
  end.

(** A computation returns, fails with an error the caller sees, or panics
    (index out of range). *)
Inductive res (A : Type) : Type :=
  | Ok (a : A)
  | Fail (e : error)
  | Panic.
Arguments Ok {A} a.
Arguments Fail {A} e.
Arguments Panic {A}.

#[global] Instance res_ret : MRet res := fun A a => Ok a.

#[global] Instance res_bind : MBind res := fun A B k m =>
  match m with
  | Ok a => k a
  | Fail e => Fail e
  | Panic => Panic
  end.

(** ** SHA-1 ([crypto/sha1]) *)

Module SHA1.

Definition rotl (n x : Z) : Z :=
  wrap32 (Z.lor (Z.shiftl x n) (Z.shiftr x (32 - n))).

Definition not32 (x : Z) : Z := Z.lxor x 0xFFFFFFFF.

Definition pad (msg : list byte) : list byte :=
  let n := Z.of_nat (length msg) in
  let z := Z.to_nat ((55 - n) mod 64) in
  msg ++ [x80] ++ repeat x00 z ++ put64 (8 * n).

(** The chunks of 64 bytes of a padded message. *)
Fixpoint chunks (fuel : nat) (bs : list byte) : list (list byte) :=
  match fuel with
  | O => []
  | S fuel' =>
      match bs with
      | [] => []
      | _ => take 64 bs :: chunks fuel' (drop 64 bs)
      end
  end.

Fixpoint words (n : nat) (bs : list byte) : list Z :=
  match n with
  | O => []
  | S n' => be32 (take 4 bs) :: words n' (drop 4 bs)
  end.

(** The message schedule, newest word first. *)
Fixpoint schedule (n : nat) (rev_w : list Z) : list Z :=
  match n with
  | O => rev_w
  | S n' =>
      let w := rotl 1 (Z.lxor (Z.lxor (nth 2 rev_w 0) (nth 7 rev_w 0))
                              (Z.lxor (nth 13 rev_w 0) (nth 15 rev_w 0))) in
      schedule n' (w :: rev_w)
  end.

Definition digest : Type := Z * Z * Z * Z * Z.

Definition round (st : digest * Z) (w : Z) : digest * Z :=
  let '(a, b, c, d, e, i) := st in
  let '(f, k) :=
    if i <? 20 then (Z.lor (Z.land b c) (Z.land (not32 b) d), 0x5A827999)
    else if i <? 40 then (Z.lxor (Z.lxor b c) d, 0x6ED9EBA1)
    else if i <? 60 then (Z.lor (Z.land (Z.lor b c) d) (Z.land b c), 0x8F1BBCDC)
    else (Z.lxor (Z.lxor b c) d, 0xCA62C1D6) in
  let t := wrap32 (rotl 5 a + f + e + w + k) in
  (t, a, rotl 30 b, c, d, i + 1).

Definition block (h : digest) (chunk : list byte) : digest :=
  let '(h0, h1, h2, h3, h4) := h in
  let w := rev (schedule 64 (rev (words 16 chunk))) in
  let '(a, b, c, d, e, _) := fold_left round w (h, 0) in
  (wrap32 (h0 + a), wrap32 (h1 + b), wrap32 (h2 + c), wrap32 (h3 + d), wrap32 (h4 + e)).

Definition init : digest :=
  (0x67452301, 0xEFCDAB89, 0x98BADCFE, 0x10325476, 0xC3D2E1F0).

(** [h := sha1.New(); h.Write(msg); h.Sum(nil)] *)
Definition Sum (msg : list byte) : list byte :=
  let p := pad msg in
  let '(h0, h1, h2, h3, h4) := fold_left block (chunks (length p) p) init in
  put32 h0 ++ put32 h1 ++ put32 h2 ++ put32 h3 ++ put32 h4.

End SHA1.

(** ** Effects of the message loop *)

(** What an iteration does besides changing the peer: sends on the
    transfer's [haveC] and on a piece's [blockC] (the piece and the block
    are named by their position in [t.pieces] and [piece.blocks]), closing
    an unchoke channel, and allocating a buffer with [make]. *)
Inductive effect : Type :=
  | SendHave (piece_pos : Z)
  | SendBlock (piece_pos block_pos : Z) (data : list byte)
  | CloseChan (ch : nat)
  | Alloc (n : Z).

(** A computation with its effects, which stay done when it fails. *)
Definition io (A : Type) : Type := (list effect * res A)%type.

#[global] Instance io_ret : MRet io := fun A a => ([], Ok a).

#[global] Instance io_bind : MBind io := fun A B k m =>
  match m with
  | (es, Ok a) => let '(es', r) := k a in (es ++ es', r)
  | (es, Fail e) => (es, Fail e)
  | (es, Panic) => (es, Panic)
  end.

Definition tell (e : effect) : io unit := ([e], Ok tt).
Definition raise {A} (e : error) : io A := ([], Fail e).
Definition panic {A} : io A := ([], Panic).
Definition pure_res {A} (r : res A) : io A := ([], r).

(** [xs[i]] on a slice *)
Definition index {A} (xs : list A) (i : Z) : io A :=
  match xs !! Z.to_nat i with
  | Some x => mret x
  | None => panic
  end.

(** ** The read side of a connection *)

(** The segments that are still to arrive, in wire order. *)
Definition conn : Type := list (list byte).

Definition conn_bytes (c : conn) : list byte := concat c.

(** The connection once [n] bytes have been read. *)
Fixpoint conn_drop (n : nat) (c : conn) : conn :=
  match c with
  | [] => []
  | seg :: rest =>
      if (n <=? length seg)%nat then drop n seg :: rest
      else conn_drop (n - length seg) rest
  end.

(** [io.ReadFull(conn, buf)] with [len(buf) = n], which [binary.Read] calls:
    it reads until the buffer is full; the error is [EOF] when no byte was
    read and [ErrUnexpectedEOF] when some but not all were. *)
Definition ReadFull (n : nat) (c : conn) : res (list byte * conn) :=
  let bs := conn_bytes c in
  if (n <=? length bs)%nat then Ok (take n bs, conn_drop n c)
  else match bs with
       | [] => Fail EOF
       | _ => Fail ErrUnexpectedEOF
       end.

(** [binary.Read(conn, binary.BigEndian, &v)] for a [uint32] *)
Definition read_uint32 (c : conn) : io (Z * conn) :=
  '(bs, c') ← pure_res (ReadFull 4 c); mret (be32 bs, c').

(** [binary.Read(conn, binary.BigEndian, &v)] for a [byte] *)
Definition read_byte (c : conn) : io (Z * conn) :=
  '(bs, c') ← pure_res (ReadFull 1 c);
  mret (match bs with b :: _ => byteZ b | [] => 0 end, c').

(** One [conn.Read(buf)] with [len(buf) = n].  A [Read] "reads up to
    len(p) bytes" and "returns what is available instead of waiting for
    more": the bytes of the first segment that holds any, at most [n] of
    them; [EOF] when none is left. *)
Fixpoint Read_seg (n : nat) (c : conn) : res (list byte * conn) :=
  match c with
  | [] => Fail EOF
  | seg :: rest =>
      match seg with
      | [] => Read_seg n rest
      | _ => Ok (take n seg, if (n <? length seg)%nat then drop n seg :: rest else rest)
      end
  end.

(** A read into an empty buffer returns at once. *)
Definition conn_Read (n : nat) (c : conn) : res (list byte * conn) :=
  match n with
  | O => Ok ([], c)
  | _ => Read_seg n c
  end.

(** [io.LimitReader(conn, n).Read(buf)] with [len(buf) = n]: [EOF] when the
    limit is zero, else one [Read] of the connection. *)
Definition limit_Read (n : nat) (c : conn) : res (list byte * conn) :=
  match n with
  | O => Fail EOF
  | _ => Read_seg n c
  end.

(** What a buffer [old] holds after a read that returned [got]. *)
Definition fill (old got : list byte) : list byte :=
  got ++ drop (length got) old.

(** [io.CopyN(ioutil.Discard, conn, n)], whose error the loop ignores: [n]
    bytes are read, or all that are left. *)
Definition discard (n : Z) (c : conn) : conn :=
  conn_drop (Z.to_nat (Z.min n (Z.of_nat (length (conn_bytes c))))) c.

(** ** Bit fields *)

(** Modelled from the spec: the bitfield package is not among the sources.
    "Packed bit vector with Set(i), Test(i), Count(), Len(), and raw byte
    access for wire I/O"; ceil(Len/8) bytes; bit 0 is the high bit of byte
    0 (a BITFIELD of [0x80] advertises piece 0).  The spec does not say
    what an index at or beyond [Len] does: here [Test] is false and
    [SetBit] leaves the bytes as they are. *)
Record bitField : Type := { Bytes : list byte; Len : Z }.

Definition newBitField (n : Z) : bitField :=
  {| Bytes := repeat x00 (Z.to_nat ((n + 7) / 8)); Len := n |}.

Definition Test (b : bitField) (i : Z) : bool :=
  (0 <=? i) && (i <? Len b) &&
  match Bytes b !! Z.to_nat (i / 8) with
  | Some x => Z.testbit (byteZ x) (7 - i mod 8)
  | None => false
  end.

Definition SetBit (b : bitField) (i : Z) : bitField :=
  if (0 <=? i) && (i <? Len b) then
    {| Bytes := alter (fun x => byte_of_Z (Z.lor (byteZ x) (Z.shiftl 1 (7 - i mod 8))))
                      (Z.to_nat (i / 8)) (Bytes b);
       Len := Len b |}
  else b.

(** The positions below [n], in increasing order. *)
Definition upto (n : Z) : list Z := map Z.of_nat (seq 0 (Z.to_nat n)).

Definition Count (b : bitField) : Z :=
  Z.of_nat (length (filter (fun i => Test b i = true) (upto (Len b)))).

(** The buffer of a bit field is shared with the caller of [Bytes]: a read
    into it changes the bit field. *)
Definition with_Bytes (b : bitField) (bs : list byte) : bitField :=
  {| Bytes := bs; Len := Len b |}.

(** ** Data model *)

Definition blockSize : Z := 16 * 1024.

Definition msgChoke : Z := 0.
Definition msgUnchoke : Z := 1.
Definition msgInterested : Z := 2.
Definition msgNotInterested : Z := 3.
Definition msgHave : Z := 4.
Definition msgBitfield : Z := 5.
Definition msgRequest : Z := 6.
Definition msgPiece : Z := 7.
Definition msgCancel : Z := 8.
Definition msgPort : Z := 9.

(** A block of a piece: [index] and [length] are [uint32].  The writer
    [files] is part of the environment of [downloadPiece]. *)
Record block : Type := { b_index : Z; b_length : Z }.

Record piece : Type := {
  p_index : Z;
  p_length : Z;
  p_sha1 : list byte;
  p_blocks : list block;
  p_bitField : bitField;
  p_downloaded : bool
}.

Record transfer : Type := {
  pieces : list piece;
  t_bitField : bitField;
  PieceLength : Z;
  TotalLength : Z
}.

(** A peer connection.  A channel is named by a number; [unchokeC] is the
    current unchoke channel and [make(chan struct{})] takes the next number.
    [onceInterested] holds whether the [sync.Once] has run.  [written] is
    the write side of the connection: one entry per write, in order.
    [closed] holds whether [conn.Close()] was called. *)
Record peerConn : Type := {
  unchokeC : nat;
  onceInterested : bool;
  amChoking : bool;
  amInterested : bool;
  peerChoking : bool;
  peerInterested : bool;
  written : list (list byte);
  closed : bool
}.

Definition newPeerConn : peerConn :=
  {| unchokeC := 0%nat; onceInterested := false;
     amChoking := true; amInterested := false;
     peerChoking := true; peerInterested := false;
     written := []; closed := false |}.

Definition set_peerChoking (v : bool) (p : peerConn) : peerConn :=
  {| unchokeC := unchokeC p; onceInterested := onceInterested p;
     amChoking := amChoking p; amInterested := amInterested p;
     peerChoking := v; peerInterested := peerInterested p;
     written := written p; closed := closed p |}.

Definition set_peerInterested (v : bool) (p : peerConn) : peerConn :=
  {| unchokeC := unchokeC p; onceInterested := onceInterested p;
     amChoking := amChoking p; amInterested := amInterested p;
     peerChoking := peerChoking p; peerInterested := v;
     written := written p; closed := closed p |}.

Definition set_unchokeC (ch : nat) (p : peerConn) : peerConn :=
  {| unchokeC := ch; onceInterested := onceInterested p;
     amChoking := amChoking p; amInterested := amInterested p;
     peerChoking := peerChoking p; peerInterested := peerInterested p;
     written := written p; closed := closed p |}.

Definition set_onceInterested (v : bool) (p : peerConn) : peerConn :=
  {| unchokeC := unchokeC p; onceInterested := v;
     amChoking := amChoking p; amInterested := amInterested p;
     peerChoking := peerChoking p; peerInterested := peerInterested p;
     written := written p; closed := closed p |}.

Definition write (frame : list byte) (p : peerConn) : peerConn :=
  {| unchokeC := unchokeC p; onceInterested := onceInterested p;
     amChoking := amChoking p; amInterested := amInterested p;
     peerChoking := peerChoking p; peerInterested := peerInterested p;
     written := written p ++ [frame]; closed := closed p |}.

Definition Close (p : peerConn) : peerConn :=
  {| unchokeC := unchokeC p; onceInterested := onceInterested p;
     amChoking := amChoking p; amInterested := amInterested p;
     peerChoking := peerChoking p; peerInterested := peerInterested p;
     written := written p; closed := true |}.

(** ** The message loop of [run] *)

(** The variables of the loop: the peer, the local [bitField] (what the
    remote has) and the flag [first]. *)
Record loop_state : Type := {
  peer : peerConn;
  view : bitField;
  first : bool
}.

Definition with_peer (p : peerConn) (s : loop_state) : loop_state :=
  {| peer := p; view := view s; first := first s |}.

Definition with_view (b : bitField) (s : loop_state) : loop_state :=
  {| peer := peer s; view := b; first := first s |}.

Definition with_first (f : bool) (s : loop_state) : loop_state :=
  {| peer := peer s; view := view s; first := f |}.

(** [for i := uint32(0); i < bitField.Len(); i++ { if bitField.Test(i)
    { t.haveC <- peerHave{p, t.pieces[i]} } }] *)
Fixpoint send_haves (t : transfer) (b : bitField) (ps : list Z) : io unit :=
  match ps with
  | [] => mret tt
  | i :: ps' =>
      if Test b i
      then _ ← index (pieces t) i; _ ← tell (SendHave i); send_haves t b ps'
      else send_haves t b ps'
  end.

Definition len32 {A} (xs : list A) : Z := wrap32 (Z.of_nat (length xs)).

(** [case msgHave] *)
Definition on_have (t : transfer) (s : loop_state) (c : conn) : io (loop_state * conn) :=
  '(i, c) ← read_uint32 c;
  if len32 (pieces t) <=? i then raise (ErrNew "unexpected piece index")
  else
    _ ← index (pieces t) i;
    _ ← tell (SendHave i);
    mret (with_view (SetBit (view s) i) s, c).

(** [case msgBitfield], once both checks have passed: one [Read] into the
    bytes of the local bit field, then the loop over its bits. *)
Definition read_bitfield (t : transfer) (s : loop_state) (c : conn) : io (loop_state * conn) :=
  '(got, c) ← pure_res (conn_Read (List.length (Bytes (view s))) c);
  let b := with_Bytes (view s) (fill (Bytes (view s)) got) in
  _ ← send_haves t b (upto (Len b));
  mret (with_view b s, c).

(** [case msgBitfield] *)
Definition on_bitfield (t : transfer) (s : loop_state) (length : Z) (c : conn)
  : io (loop_state * conn) :=
  if negb (first s) then raise (ErrNew "bitfield can only be sent after handshake")
  else if negb (length =? Z.of_nat (List.length (Bytes (view s))))
  then raise (ErrNew "invalid bitfield length")
  else read_bitfield t s c.

(** [case msgPiece] *)
Definition on_piece (t : transfer) (s : loop_state) (length : Z) (c : conn)
  : io (loop_state * conn) :=
  '(index_, c) ← read_uint32 c;
  if len32 (pieces t) <=? index_ then raise (ErrNew "unexpected piece index")
  else
    piece ← index (pieces t) index_;
    '(begin, c) ← read_uint32 c;
    if negb (begin mod blockSize =? 0) then raise (ErrNew "unexpected piece offset")
    else
      let blockIndex := begin / blockSize in
      if len32 (p_blocks piece) <=? blockIndex then raise (ErrNew "unexpected piece offset")
      else
        block ← index (p_blocks piece) blockIndex;
        let length := wrap32 (length - 8) in
        if negb (length =? b_length block) then raise (ErrNew "unexpected block size")
        else
          _ ← tell (Alloc length);
          '(got, c) ← pure_res (limit_Read (Z.to_nat length) c);
          let data := fill (repeat x00 (Z.to_nat length)) got in
          _ ← tell (SendBlock index_ blockIndex data);
          mret (s, c).

(** The [switch msgType] of the loop; [length] is what is left of the frame
    after the message id. *)
Definition dispatch (t : transfer) (s : loop_state) (msgType length : Z) (c : conn)
  : io (loop_state * conn) :=
  if msgType =? msgChoke then
    mret (with_peer (set_peerChoking true (peer s)) s, c)
  else if msgType =? msgUnchoke then
    _ ← tell (CloseChan (unchokeC (peer s)));
    mret (with_peer (set_unchokeC (S (unchokeC (peer s)))
                       (set_peerChoking false (peer s))) s, c)
  else if msgType =? msgInterested then
    mret (with_peer (set_peerInterested true (peer s)) s, c)
  else if msgType =? msgNotInterested then
    mret (with_peer (set_peerInterested false (peer s)) s, c)
  else if msgType =? msgHave then on_have t s c
  else if msgType =? msgBitfield then on_bitfield t s length c
  else if msgType =? msgRequest then mret (s, c)
  else if msgType =? msgPiece then on_piece t s length c
  else if msgType =? msgCancel then mret (s, c)
  else if msgType =? msgPort then mret (s, c)
  else mret (s, discard length c).

(** One iteration of the [for] loop: the new loop variables and what is
    left of the connection, or the error that is logged before [run]
    returns. *)
Definition run_iter (t : transfer) (s : loop_state) (c : conn) : io (loop_state * conn) :=
  '(length, c) ← read_uint32 c;
  if length =? 0 then mret (s, c)
  else
    '(msgType, c) ← read_byte c;
    let length := wrap32 (length - 1) in
    '(s, c) ← dispatch t s msgType length c;
    mret (with_first false s, c).

(** How [run] ends: it returns after logging an error, with the loop
    variables as they are then, or it panics; the deferred
    [close(p.disconnected)] runs either way. *)
Inductive exit : Type :=
  | Returned (e : error) (s : loop_state)
  | Panicked.

(** [n] iterations that all go on. *)
Fixpoint run_iters (n : nat) (t : transfer) (s : loop_state) (c : conn)
  : io (loop_state * conn) :=
  match n with
  | O => mret (s, c)
  | S n' => '(s', c') ← run_iter t s c; run_iters n' t s' c'
  end.

(** The loop, for at most [fuel] iterations. *)
Fixpoint run_loop (fuel : nat) (t : transfer) (s : loop_state) (c : conn)
  : option (list effect * exit) :=
  match fuel with
  | O => None
  | S fuel' =>
      match run_iter t s c with
      | (es, Ok (s', c')) =>
          match run_loop fuel' t s' c' with
          | Some (es', x) => Some (es ++ es', x)
          | None => None
          end
      | (es, Fail e) => Some (es, Returned e s)
      | (es, Panic) => Some (es, Panicked)
      end
  end.

(** [sendBitField]: the frame that is written. *)
Definition bitfield_frame (b : bitField) : list byte :=
  put32 (1 + Z.of_nat (length (Bytes b))) ++ [byte_of_Z msgBitfield] ++ Bytes b.

(** The loop variables when the loop starts. *)
Definition start (t : transfer) (p : peerConn) : loop_state :=
  {| peer := write (bitfield_frame (t_bitField t)) p;
     view := newBitField (Len (t_bitField t));
     first := true |}.

(** [run]: [wr] is the result of writing our bit field. Every iteration
    that goes on has read four bytes, so the bytes of the connection bound
    the iterations. *)
Definition run (t : transfer) (p : peerConn) (wr : option error) (c : conn)
  : option (list effect * exit) :=
  match wr with
  | Some e => Some ([], Returned e (start t p))
  | None => run_loop (S (length (conn_bytes c))) t (start t p) c
  end.

(** ** Sending *)

#[global] Instance byte_eq_decision : EqDecision byte := Byte.byte_eq_dec.

(** [sendMessage]: a frame of length 1 that holds the message id.  [wr] is
    the result of the write. *)
Definition message_frame (msgType : Z) : list byte :=
  put32 1 ++ [byte_of_Z msgType].

Definition sendMessage (msgType : Z) (wr : option error) (p : peerConn)
  : peerConn * option error :=
  (write (message_frame msgType) p, wr).

(** [sendRequest(newPeerRequestMessage(index, begin, length))] *)
Definition request_frame (index_ begin length : Z) : list byte :=
  put32 13 ++ [byte_of_Z msgRequest] ++ put32 index_ ++ put32 begin ++ put32 length.

Definition sendRequest (index_ begin length : Z) (wr : option error) (p : peerConn)
  : peerConn * option error :=
  (write (request_frame index_ begin length) p, wr).

(** [beInterested]: the peer after the call, the channel that is returned
    and the error.  [onceInterested.Do] runs its function only the first
    time, whatever that call returned. *)
Definition beInterested (wr : option error) (p : peerConn)
  : peerConn * nat * option error :=
  let ch := unchokeC p in
  if negb (peerChoking p) then (p, ch, None)
  else if onceInterested p then (p, ch, None)
  else
    let '(p', err) := sendMessage msgInterested wr (set_onceInterested true p) in
    (p', ch, err).

(** ** [downloadPiece] *)

(** What a [select] against [time.After(time.Minute)] ends with. *)
Inductive wait (A : Type) : Type :=
  | Arrived (a : A)
  | TimedOut.
Arguments Arrived {A} a.
Arguments TimedOut {A}.

(** What the surroundings do while one block is requested: the result of
    writing the request, what comes out of [piece.blockC] within the minute,
    and the result of [b.files.Write]. *)
Record block_env : Type := {
  request_wr : option error;
  block_wait : wait (list byte);
  files_wr : option error
}.

(** The surroundings of one call: the result of writing "interested" if it
    is written, whether the channel got from [beInterested] is closed
    within the minute, and the blocks by their position in [piece.blocks]. *)
Record env : Type := {
  interested_wr : option error;
  unchoke_wait : wait unit;
  block_envs : nat -> block_env
}.

(** [copy(buf[off:], data)]; the slice expression panics beyond the end. *)
Definition copy_at (off : Z) (data buf : list byte) : res (list byte) :=
  let o := Z.to_nat off in
  if (length buf <? o)%nat then Panic
  else Ok (take o buf ++ take (length buf - o) data ++ drop (o + length data) buf).

(** The variables the block loop changes. *)
Record dl_state : Type := {
  dl_peer : peerConn;
  dl_received : bitField;
  pieceData : list byte
}.

(** [for i, b := range piece.blocks { ... }], from position [i] on. *)
Fixpoint request_blocks (e : nat -> block_env) (index_ : Z) (bs : list block) (i : nat)
    (st : dl_state) : dl_state * res unit :=
  match bs with
  | [] => (st, Ok tt)
  | b :: bs' =>
      let '(p, err) := sendRequest index_ (wrap32 (b_index b * blockSize)) (b_length b)
                         (request_wr (e i)) (dl_peer st) in
      let st := {| dl_peer := p; dl_received := dl_received st; pieceData := pieceData st |} in
      match err with
      | Some err => (st, Fail err)
      | None =>
          match block_wait (e i) with
          | TimedOut => request_blocks e index_ bs' (S i) st
          | Arrived data =>
              if negb (len32 data =? b_length b)
              then (st, Fail (ErrNew "unexpected block length"))
              else
                match copy_at (wrap32 (b_index b * blockSize)) data (pieceData st) with
                | Panic => (st, Panic)
                | Fail err => (st, Fail err)
                | Ok buf =>
                    let st := {| dl_peer := p; dl_received := dl_received st;
                                 pieceData := buf |} in
                    match files_wr (e i) with
                    | Some err => (st, Fail err)
                    | None =>
                        request_blocks e index_ bs' (S i)
                          {| dl_peer := p;
                             dl_received := SetBit (dl_received st) (wrap32 (Z.of_nat i));
                             pieceData := buf |}
                    end
                end
          end
      end
  end.

Definition with_received (b : bitField) (pc : piece) : piece :=
  {| p_index := p_index pc; p_length := p_length pc; p_sha1 := p_sha1 pc;
     p_blocks := p_blocks pc; p_bitField := b; p_downloaded := p_downloaded pc |}.

Definition set_downloaded (v : bool) (pc : piece) : piece :=
  {| p_index := p_index pc; p_length := p_length pc; p_sha1 := p_sha1 pc;
     p_blocks := p_blocks pc; p_bitField := p_bitField pc; p_downloaded := v |}.

(** The block loop of one call, from the piece buffer [make] gives. *)
Definition fetch (e : env) (p : peerConn) (pc : piece) : dl_state * res unit :=
  request_blocks (block_envs e) (p_index pc) (p_blocks pc) 0
    {| dl_peer := p; dl_received := p_bitField pc;
       pieceData := repeat x00 (Z.to_nat (p_length pc)) |}.

(** [downloadPiece]: the peer and the piece after the call, and what the
    call returns ([Ok tt] for [nil]). *)
Definition downloadPiece (e : env) (p : peerConn) (pc : piece)
  : peerConn * piece * res unit :=
  let '(p, _, err) := beInterested (interested_wr e) p in
  match err with
  | Some err => (p, pc, Fail err)
  | None =>
      match unchoke_wait e with
      | TimedOut => (Close p, pc, Fail (ErrNew "Peer did not unchoke"))
      | Arrived _ =>
          let '(st, r) := fetch e p pc in
          let pc := with_received (dl_received st) pc in
          match r with
          | Panic => (dl_peer st, pc, Panic)
          | Fail err => (dl_peer st, pc, Fail err)
          | Ok _ =>
              if negb (bool_decide (SHA1.Sum (pieceData st) = p_sha1 pc))
              then (dl_peer st, pc, Fail (ErrNew "received corrupt piece"))
              else (dl_peer st, set_downloaded true pc, Ok tt)
          end
      end
  end.

(** The piece buffer the hash is taken of, when the call gets that far. *)
Definition assembled (e : env) (p : peerConn) (pc : piece) : option (list byte) :=
  let '(p, _, err) := beInterested (interested_wr e) p in
  match err, unchoke_wait e with
  | None, Arrived _ =>
      match fetch e p pc with
      | (st, Ok _) => Some (pieceData st)
      | _ => None
      end
  | _, _ => None
  end.

(** ** The lifetime of a peer *)

(** What happens to a peer once [run] has started: the loop makes an
    iteration, or a downloader calls [beInterested], writes a request,
    closes the connection, or makes a whole call of [downloadPiece].  The
    mutex [unchokeM] makes [beInterested] and the UNCHOKE case of the loop
    exclude each other, so every run of the two goroutines is a sequence
    of these. *)
Inductive op : Type :=
  | Iterate
  | BeInterested (wr : option error)
  | SendRequest (index_ begin length : Z) (wr : option error)
  | CloseConn
  | DownloadPiece (e : env) (pc : piece).

(** An iteration that ends the loop leaves the peer as it is. *)
Definition lifetime_step (t : transfer) (st : loop_state * conn) (o : op)
  : loop_state * conn :=
  let '(s, c) := st in
  match o with
  | Iterate =>
      match run_iter t s c with
      | (_, Ok (s', c')) => (s', c')
      | _ => (s, c)
      end
  | BeInterested wr => (with_peer (beInterested wr (peer s)).1.1 s, c)
  | SendRequest i b l wr => (with_peer (sendRequest i b l wr (peer s)).1 s, c)
  | CloseConn => (with_peer (Close (peer s)) s, c)
  | DownloadPiece e pc => (with_peer (downloadPiece e (peer s) pc).1.1 s, c)
  end.

Definition lifetime (t : transfer) (ops : list op) (st : loop_state * conn)
  : loop_state * conn :=
  fold_left (lifetime_step t) ops st.

(** The number of "interested" frames among the writes of a peer. *)
Definition interested_sent (p : peerConn) : nat :=
  length (filter (fun f => f = message_frame msgInterested) (written p)).

(** What the invariant needs of a peer: "interested" is among the writes
    at most once, and not at all while the [sync.Once] has not run. *)
Definition once_inv (p : peerConn) : Prop :=
  (interested_sent p <= if onceInterested p then 1 else 0)%nat.

(** ** The transfer *)

(** [Downloaded]: the product is taken in the type of its operands and
    converted to [int64] afterwards.  That type is [uint32]: the bit field
    is made with [uint32(len(pieces))] and indexed and measured in
    [uint32] ([Set], [Test], [Len]), Go multiplies operands of one type
    only, and the file keeps a [minUint32] for lengths next to [minInt64].
    So the product is taken modulo 2^32. *)
Definition Downloaded (t : transfer) : Z :=
  wrap_int64 (wrap32 (Count (t_bitField t) * PieceLength t)).

Definition Left (t : transfer) : Z :=
  wrap_int64 (TotalLength t - Downloaded t).

(** ** The queue of peer addresses in [Run] *)

Module Supervisor.

(** Modelled from the spec: the tracker package is not among the sources.
    "A bounded peer-address channel (capacity = NumWant = 50)". *)
Definition NumWant : nat := 50.

Section Channel.

Context {Peer : Type}.

(** A buffered channel: what waits in it, oldest first, and its capacity. *)
Record chan : Type := { buf : list Peer; cap : nat }.

(** [make(chan tracker.Peer, n)] *)
Definition make (n : nat) : chan := {| buf := []; cap := n |}.

(** [select { case peers <- pa: default: <-peers; peers <- pa }], with no
    receiver at work in between.  [None]: the receive blocks, nothing waits
    in the channel. *)
Definition enqueue (pa : Peer) (peers : chan) : option chan :=
  if (length (buf peers) <? cap peers)%nat
  then Some {| buf := buf peers ++ [pa]; cap := cap peers |}
  else match buf peers with
       | [] => None
       | _ :: waiting => Some {| buf := waiting ++ [pa]; cap := cap peers |}
       end.

(** [for _, pa := range peerAddrs { ... }] *)
Fixpoint announce (peerAddrs : list Peer) (peers : chan) : option chan :=
  match peerAddrs with
  | [] => Some peers
  | pa :: rest =>
      match enqueue pa peers with
      | Some peers' => announce rest peers'
      | None => None
      end
  end.

(** [for p := range peers] in the connecter takes the oldest address. *)
Definition receive (peers : chan) : option (Peer * chan) :=
  match buf peers with
  | [] => None
  | p :: waiting => Some (p, {| buf := waiting; cap := cap peers |})
  end.

(** What happens to the channel: the supervisor queues an address, or the
    connecter takes one. *)
Inductive action : Type :=
  | Enqueue (pa : Peer)
  | Receive.

(** A step that would block leaves the channel as it is. *)
Definition act (a : action) (peers : chan) : chan :=
  match a with
  | Enqueue pa => default peers (enqueue pa peers)
  | Receive => from_option snd peers (receive peers)
  end.

(** At most as many addresses wait as the channel can hold. *)
Definition bounded (peers : chan) : Prop := (length (buf peers) <= cap peers)%nat.

(** The channel of [Run] after a sequence of actions. *)
Definition peers_after (acts : list action) : chan :=
  fold_left (fun peers a => act a peers) acts (make NumWant).

End Channel.

Arguments chan : clear implicits.
Arguments action : clear implicits.

End Supervisor.

(** ** Frames on the wire *)

(** A frame: the length prefix, the message id and the body. *)
Definition frame (msgType : Z) (body : list byte) : list byte :=
  put32 (1 + Z.of_nat (length body)) ++ byte_of_Z msgType :: body.

Definition keep_alive : list byte := put32 0.

(** A PIECE frame, from the length prefix to the offset. *)
Definition piece_header (L idx begin : Z) : list byte :=
  put32 L ++ byte_of_Z msgPiece :: put32 idx ++ put32 begin.

(** ** A small torrent and a large one *)

Module Examples.

Definition bytes_of (l : list Z) : list byte := map byte_of_Z l.

(** One file of four bytes: one piece of one block. *)
Definition content : list byte := bytes_of [1; 2; 3; 4].

Definition small_piece : piece :=
  {| p_index := 0; p_length := 4; p_sha1 := SHA1.Sum content;
     p_blocks := [{| b_index := 0; b_length := 4 |}];
     p_bitField := newBitField 1; p_downloaded := false |}.

Definition small : transfer :=
  {| pieces := [small_piece]; t_bitField := newBitField 1;
     PieceLength := 16384; TotalLength := 4 |}.

(** One file of 16384 bytes "A" in one piece of one block. *)
Definition letters : list byte := repeat "A"%byte 16384.

Definition single_piece : piece :=
  {| p_index := 0; p_length := 16384; p_sha1 := SHA1.Sum letters;
     p_blocks := [{| b_index := 0; b_length := 16384 |}];
     p_bitField := newBitField 1; p_downloaded := false |}.

Definition single : transfer :=
  {| pieces := [single_piece]; t_bitField := newBitField 1;
     PieceLength := 16384; TotalLength := 16384 |}.

(** A piece of one full block. *)
Definition block_piece (i : Z) : piece :=
  {| p_index := i; p_length := 16384; p_sha1 := repeat x00 20;
     p_blocks := [{| b_index := 0; b_length := 16384 |}];
     p_bitField := newBitField 1; p_downloaded := false |}.

(** Sixteen pieces of 16 KiB: the bit field takes two bytes. *)
Definition sixteen : transfer :=
  {| pieces := map block_piece (upto 16); t_bitField := newBitField 16;
     PieceLength := 16384; TotalLength := 16 * 16384 |}.

(** 4 GiB and one byte in pieces of 4 MiB, all of them downloaded: 1024
    full pieces and a last piece of one byte. *)
Definition large_piece (i : Z) : piece :=
  {| p_index := i;
     p_length := if i =? 1024 then 1 else 4194304;
     p_sha1 := repeat x00 20;
     p_blocks := if i =? 1024 then [{| b_index := 0; b_length := 1 |}]
                 else map (fun j => {| b_index := j; b_length := 16384 |}) (upto 256);
     p_bitField := newBitField (if i =? 1024 then 1 else 256);
     p_downloaded := true |}.

Definition large : transfer :=
  {| pieces := map large_piece (upto 1025);
     t_bitField := {| Bytes := repeat xff 128 ++ [x80]; Len := 1025 |};
     PieceLength := 4194304; TotalLength := 1024 * 4194304 + 1 |}.

(** The remote unchokes in time and sends every block it is asked for;
    all writes succeed. *)
Definition served (data : list byte) : env :=
  {| interested_wr := None; unchoke_wait := Arrived tt;
     block_envs := fun _ => {| request_wr := None; block_wait := Arrived data;
                               files_wr := None |} |}.

(** The remote never unchokes. *)
Definition choked : env :=
  {| interested_wr := None; unchoke_wait := TimedOut;
     block_envs := fun _ => {| request_wr := None; block_wait := TimedOut;
                               files_wr := None |} |}.

(** A peer that is unchoked between two calls of [beInterested] and then
    asked for the piece of the small torrent. *)
Definition session : loop_state * conn :=
  lifetime small
    [BeInterested None; Iterate; BeInterested None; DownloadPiece (served content) small_piece]
    (start small newPeerConn, [frame msgUnchoke []]).

End Examples.

(** ** More of the peer connection *)

(** The channels an effect trace closes, in order. *)
Definition closes (es : list effect) : list nat :=
  omap (fun e => match e with CloseChan ch => Some ch | _ => None end) es.

(** The frames [downloadPiece] writes for blocks, in the order of
    [piece.blocks]. *)
Definition request_frames (index_ : Z) (bs : list block) : list (list byte) :=
  map (fun b => request_frame index_ (wrap32 (b_index b * blockSize)) (b_length b)) bs.

(** What comes out of [piece.blockC] for the blocks at the [n] positions
    from [i] on, one after the other; nothing for a block that times out. *)
Definition arrivals (e : nat -> block_env) (i n : nat) : list byte :=
  concat (map (fun j => match block_wait (e j) with
                        | Arrived data => data
                        | TimedOut => []
                        end) (seq i n)).

(** Blocks that tile [len] bytes from block index [i] on: each block has
    its position for index, every block but the last is [blockSize] long,
    the last one holds what is left. *)
Fixpoint tiles (i : Z) (bs : list block) (len : Z) : Prop :=
  match bs with
  | [] => len = 0
  | b :: bs' =>
      b_index b = i /\ 0 < b_length b <= blockSize /\
      (bs' <> [] -> b_length b = blockSize) /\
      tiles (i + 1) bs' (len - b_length b)
  end.

(** Every block from position [i] on is requested, arrives with the length
    that was asked for, and is written to its files. *)
Fixpoint all_served (e : nat -> block_env) (i : nat) (bs : list block) : Prop :=
  match bs with
  | [] => True
  | b :: bs' =>
      request_wr (e i) = None /\ files_wr (e i) = None /\
      (exists data, block_wait (e i) = Arrived data /\
                    Z.of_nat (length data) = b_length b) /\
      all_served e (S i) bs'
  end.

(** Whether the block loop goes on past the block at position [i]: the
    request is written, and the block does not come within the minute, or
    it comes with the length asked for, at an offset within a piece buffer
    of [len] bytes, and is written to its files. *)
Definition block_passes (e : nat -> block_env) (len : nat) (i : nat) (b : block) : bool :=
  match request_wr (e i), block_wait (e i) with
  | Some _, _ => false
  | None, TimedOut => true
  | None, Arrived data =>
      (len32 data =? b_length b)
      && (Z.to_nat (wrap32 (b_index b * blockSize)) <=? len)%nat
      && match files_wr (e i) with None => true | Some _ => false end
  end.

(** How many blocks the loop goes past, from position [i] on, before a
    block stops it. *)
Fixpoint passing (e : nat -> block_env) (len : nat) (bs : list block) (i : nat) : nat :=
  match bs with
  | [] => 0
  | b :: bs' => if block_passes e len i b then S (passing e len bs' (S i)) else 0
  end.

(** A bit field that has the bytes its length asks for. *)
Definition wf_view (b : bitField) : Prop :=
  0 <= Len b /\ Z.of_nat (length (Bytes b)) = (Len b + 7) / 8.

(** A peer after the writes [fs], in order. *)
Definition writes (fs : list (list byte)) (p : peerConn) : peerConn :=
  fold_left (fun p f => write f p) fs p.

(** ** The newest addresses *)

(** The last [n] elements of a list. *)
Definition newest {A} (n : nat) (xs : list A) : list A := drop (length xs - n) xs.

(** ** [Run] and the connecter, statement by statement *)

Module Interleaving.

Section Steps.

Context {Peer : Type}.

(** The capacity of [limit]; the constant is not among the sources. *)
Variable maxPeerPerTorrent : nat.

(** Where [Run] stands in [for _, pa := range peerAddrs { select { case
    peers <- pa: default: <-peers; peers <- pa } }]: at the [select] with
    the addresses still to queue ([pa] first; with none the loop is over),
    in the default case at [<-peers], or after it at [peers <- pa]. *)
Inductive supervisor : Type :=
  | Selecting (todo : list Peer)
  | Receiving (pa : Peer) (todo : list Peer)
  | Sending (pa : Peer) (todo : list Peer).

(** Where the connecter stands in [for p := range peers { limit <-
    struct{}{}; go ... }]: at [range peers], or with an address at the send
    on [limit]. *)
Inductive connecter : Type :=
  | Ranging
  | Limited (p : Peer).

(** The channel [peers], the two goroutines, the number of workers that
    hold a place of [limit], and the addresses given to workers so far. *)
Record state : Type := {
  peers : Supervisor.chan Peer;
  sup : supervisor;
  con : connecter;
  running : nat;
  dialled : list Peer
}.

(** Who makes the next step: [Run], the connecter, or a worker that
    returns from [connectToPeer] and gives its place back ([<-limit]). *)
Inductive actor : Type := Sup | Con | Worker.

Definition send (pa : Peer) (ch : Supervisor.chan Peer) : Supervisor.chan Peer :=
  {| Supervisor.buf := Supervisor.buf ch ++ [pa]; Supervisor.cap := Supervisor.cap ch |}.

Definition has_room (ch : Supervisor.chan Peer) : bool :=
  (length (Supervisor.buf ch) <? Supervisor.cap ch)%nat.

(** One step of one goroutine; [None] when it cannot move: a receive on an
    empty channel or a send on a full one blocks, and the [select] takes
    its default case when the send would block. *)
Definition step (a : actor) (st : state) : option state :=
  match a with
  | Sup =>
      match sup st with
      | Selecting [] => None
      | Selecting (pa :: todo) =>
          if has_room (peers st)
          then Some {| peers := send pa (peers st); sup := Selecting todo; con := con st;
                       running := running st; dialled := dialled st |}
          else Some {| peers := peers st; sup := Receiving pa todo; con := con st;
                       running := running st; dialled := dialled st |}
      | Receiving pa todo =>
          match Supervisor.receive (peers st) with
          | Some (_, ch) => Some {| peers := ch; sup := Sending pa todo; con := con st;
                                    running := running st; dialled := dialled st |}
          | None => None
          end
      | Sending pa todo =>
          if has_room (peers st)
          then Some {| peers := send pa (peers st); sup := Selecting todo; con := con st;
                       running := running st; dialled := dialled st |}
          else None
      end
  | Con =>
      match con st with
      | Ranging =>
          match Supervisor.receive (peers st) with
          | Some (p, ch) => Some {| peers := ch; sup := sup st; con := Limited p;
                                    running := running st; dialled := dialled st |}
          | None => None
          end
      | Limited p =>
          if (running st <? maxPeerPerTorrent)%nat
          then Some {| peers := peers st; sup := sup st; con := Ranging;
                       running := S (running st); dialled := dialled st ++ [p] |}
          else None
      end
  | Worker =>
      match running st with
      | O => None
      | S n => Some {| peers := peers st; sup := sup st; con := con st;
                       running := n; dialled := dialled st |}
      end
  end.

(** The steps of a schedule, one after the other; [None] when the one whose
    turn it is cannot move. *)
Fixpoint steps (sched : list actor) (st : state) : option state :=
  match sched with
  | [] => Some st
  | a :: sched' =>
      match step a st with
      | Some st' => steps sched' st'
      | None => None
      end
  end.

(** A schedule in which one that cannot move stays where it is. *)
Definition moves (sched : list actor) (st : state) : state :=
  fold_left (fun st a => default st (step a st)) sched st.

(** [Run] at the loop over the addresses of an announce, with [waiting] in
    the channel of [NumWant] places, the connecter at [range peers] and no
    worker at work. *)
Definition announced (waiting peerAddrs : list Peer) : state :=
  {| peers := {| Supervisor.buf := waiting; Supervisor.cap := Supervisor.NumWant |};
     sup := Selecting peerAddrs; con := Ranging; running := 0; dialled := [] |}.

(** The connecter takes an address and starts a worker for it, and the
    worker returns; [n] times. *)
Fixpoint drain (n : nat) : list actor :=
  match n with
  | O => []
  | S n' => Con :: Con :: Worker :: drain n'
  end.

End Steps.

Arguments state : clear implicits.
Arguments supervisor : clear implicits.
Arguments connecter : clear implicits.

End Interleaving.

(** ** Paths *)

From Stdlib.Strings Require Import Ascii.
From stdpp Require Import gmap strings.

Local Open Scope Z_scope.

Module filepath.

(** [strings.Split(s, "/")]: the elements between the separators; there is
    always one, the empty one for the empty string. *)
Fixpoint split (s : string) : list string :=
  match s with
  | EmptyString => [EmptyString]
  | String a s' =>
      if Ascii.eqb a "/"%char then EmptyString :: split s'
      else match split s' with
           | e :: es => String a e :: es
           | [] => [String a EmptyString]
           end
  end.

(** [strings.Join(elems, "/")] *)
Fixpoint join (elems : list string) : string :=
  match elems with
  | [] => EmptyString
  | [e] => e
  | e :: es => (e ++ "/" ++ join es)%string
  end.

(** A path that starts at the root. *)
Definition rooted (path : string) : bool :=
  match path with
  | String a _ => Ascii.eqb a "/"%char
  | EmptyString => false
  end.

(** The loop of [Clean] over the elements of a path.  [out] holds the
    elements kept so far, the last one first.  An empty element and "." are
    passed over; ".." takes back the element before it when there is one
    that is not ".." itself, is dropped at the root, and is kept at the
    start of a path that is not rooted. *)
Fixpoint clean_elems (is_rooted : bool) (out elems : list string) : list string :=
  match elems with
  | [] => rev out
  | e :: es =>
      if bool_decide (e = EmptyString) || bool_decide (e = "."%string)
      then clean_elems is_rooted out es
      else if bool_decide (e = ".."%string) then
        match out with
        | o :: out' =>
            if bool_decide (o = ".."%string) then clean_elems is_rooted (e :: out) es
            else clean_elems is_rooted out' es
        | [] => if is_rooted then clean_elems is_rooted [] es
                else clean_elems is_rooted [e] es
        end
      else clean_elems is_rooted (e :: out) es
  end.

(** [filepath.Clean] where the separator is "/": the shortest path that
    names the same file by its letters alone; "." for the empty path. *)
Definition Clean (path : string) : string :=
  let out := clean_elems (rooted path) [] (split path) in
  if rooted path then ("/" ++ join out)%string
  else match out with
       | [] => "."%string
       | _ => join out
       end.

(** [filepath.Join]: the elements from the first one that is not empty on,
    joined by the separator and cleaned; the empty string when there is
    none. *)
Fixpoint Join (elem : list string) : string :=
  match elem with
  | [] => EmptyString
  | e :: es => if bool_decide (e = EmptyString) then Join es else Clean (join (e :: es))
  end.

(** [filepath.Dir]: the path up to and with its last separator, cleaned. *)
Definition Dir (path : string) : string :=
  Clean (match removelast (split path) with
         | [] => EmptyString
         | es => join (es ++ [EmptyString])
         end).

End filepath.

(** ** Files *)

Module OS.

(** A path as the system calls get it: the string [filepath.Join] made.
    Two paths are the same file when they are the same string: the disk
    has no links, and every path is resolved from the same directory. *)
Definition path : Type := string.

(** The regular files with their sizes, and the directories. *)
Record disk : Type := { files : gmap path Z; dirs : gset path }.

(** What the system calls made for one file return. *)
Record calls : Type := {
  MkdirAll_err : option error;
  Create_err : option error;
  Truncate_err : option error;
  Sync_err : option error
}.

(** [os.MkdirAll(dir, ...)] makes the directory and the ones above it. *)
Definition MkdirAll (dir : path) (d : disk) : disk :=
  {| files := files d;
     dirs := dirs d ∪ list_to_set (map (fun n => Nat.iter n filepath.Dir dir)
                                     (seq 0 (S (length (filepath.split dir))))) |}.

(** [createTruncateSync]: [os.Create] makes the file or cuts it to no
    bytes, [Truncate] gives it its length and fails on a negative one,
    [Sync] changes nothing that shows here.  The handle is the path. *)
Definition createTruncateSync (o : calls) (p : path) (length : Z) (d : disk)
  : disk * res path :=
  match Create_err o with
  | Some err => (d, Fail err)
  | None =>
      let d := {| files := <[p := 0%Z]> (files d); dirs := dirs d |} in
      if (length <? 0)%Z then (d, Fail (ErrTransport "invalid argument"))
      else
        match Truncate_err o with
        | Some err => (d, Fail err)
        | None =>
            let d := {| files := <[p := length]> (files d); dirs := dirs d |} in
            match Sync_err o with
            | Some err => (d, Fail err)
            | None => (d, Ok p)
            end
        end
  end.

End OS.

Module Meta.

(** One file of a torrent of several files. *)
Record FileDict : Type := { Path : list string; Length : Z }.

(** What [allocate] and [newTransfer] read of [torrent.Info].  The method
    [MultiFile] is not among the sources: its result is a field here. *)
Record Info : Type := {
  Name : string;
  SingleLength : Z;
  Files : list FileDict;
  MultiFile : bool;
  InfoPieceLength : Z;
  InfoTotalLength : Z
}.

End Meta.

(** The loop of [allocate] over [info.Files], from position [i] on.  [root]
    is [where] and [info.Name]; [os] gives what the system calls return for
    the file at each position. *)
Fixpoint allocate_files (root : list string) (fs : list Meta.FileDict) (i : nat)
    (os : nat -> OS.calls) (d : OS.disk) : OS.disk * res (list OS.path) :=
  match fs with
  | [] => (d, Ok [])
  | f :: fs' =>
      let parts := root ++ Meta.Path f in
      let p := filepath.Join parts in
      match OS.MkdirAll_err (os i) with
      | Some err => (d, Fail err)
      | None =>
          let d := OS.MkdirAll (filepath.Dir p) d in
          match OS.createTruncateSync (os i) p (Meta.Length f) d with
          | (d, Ok h) =>
              match allocate_files root fs' (S i) os d with
              | (d, Ok hs) => (d, Ok (h :: hs))
              | (d, r) => (d, r)
              end
          | (d, Fail err) => (d, Fail err)
          | (d, Panic) => (d, Panic)
          end
      end
  end.

(** [allocate]: the disk afterwards, and the handles or the error. *)
Definition allocate (info : Meta.Info) (where_ : string) (os : nat -> OS.calls)
    (d : OS.disk) : OS.disk * res (list OS.path) :=
  if negb (Meta.MultiFile info) then
    match OS.createTruncateSync (os 0%nat) (filepath.Join [where_; Meta.Name info])
            (Meta.SingleLength info) d with
    | (d, Ok f) => (d, Ok [f])
    | (d, Fail err) => (d, Fail err)
    | (d, Panic) => (d, Panic)
    end
  else allocate_files [where_; Meta.Name info] (Meta.Files info) 0 os d.

(** [newTransfer]: [tracker_New] is the error of [tracker.New], if any;
    [newPieces] is not among the sources and is taken as it comes.  The
    transfer and the name of its logger. *)
Definition newTransfer (newPieces : Meta.Info -> list OS.path -> list piece)
    (tracker_New : option error) (info : Meta.Info) (where_ : string)
    (os : nat -> OS.calls) (d : OS.disk) : OS.disk * res (transfer * string) :=
  match tracker_New with
  | Some err => (d, Fail err)
  | None =>
      match allocate info where_ os d with
      | (d, Fail err) => (d, Fail err)
      | (d, Panic) => (d, Panic)
      | (d, Ok files) =>
          let pieces := newPieces info files in
          let name := Meta.Name info in
          let name := if (8 <? String.length name)%nat then substring 0 8 name else name in
          (d, Ok ({| pieces := pieces;
                     t_bitField := newBitField (len32 pieces);
                     PieceLength := Meta.InfoPieceLength info;
                     TotalLength := Meta.InfoTotalLength info |},
                  ("download " ++ name)%string))
      end
  end.

(** [Uploaded] *)
Definition Uploaded (t : transfer) : Z := 0%Z.


(** The paths [allocate] gives the files of a torrent of several files. *)
Definition file_paths (root : list string) (fs : list Meta.FileDict) : list OS.path :=
  map (fun f => filepath.Join (root ++ Meta.Path f)) fs.

Module BlockExamples.

(** A piece of three blocks, the last one of four bytes. *)
Definition three_blocks : piece :=
  {| p_index := 5; p_length := 2 * blockSize + 4; p_sha1 := repeat x00 20;
     p_blocks := [{| b_index := 0; b_length := blockSize |};
                  {| b_index := 1; b_length := blockSize |};
                  {| b_index := 2; b_length := 4 |}];
     p_bitField := newBitField 3; p_downloaded := false |}.

(** The remote unchokes, lets the first block wait and answers the second
    request with four bytes. *)
Definition short_second : env :=
  {| interested_wr := None; unchoke_wait := Arrived tt;
     block_envs := fun i =>
       match i with
       | 1%nat => {| request_wr := None; block_wait := Arrived (repeat x00 4);
                     files_wr := None |}
       | _ => {| request_wr := None; block_wait := TimedOut; files_wr := None |}
       end |}.

End BlockExamples.

Module FileExamples.

Definition no_error : OS.calls :=
  {| OS.MkdirAll_err := None; OS.Create_err := None;
     OS.Truncate_err := None; OS.Sync_err := None |}.

Definition empty_disk : OS.disk := {| OS.files := ∅; OS.dirs := ∅ |}.

(** One file of four bytes. *)
Definition one_file : Meta.Info :=
  {| Meta.Name := "ubuntu-14.04.iso"; Meta.SingleLength := 4; Meta.Files := [];
     Meta.MultiFile := false; Meta.InfoPieceLength := 16384; Meta.InfoTotalLength := 4 |}.



End FileExamples.

(** * Properties *)

#[local] Arguments be32 : simpl never.
#[local] Arguments put32 : simpl never.
#[local] Arguments wrap32 : simpl never.

(** ** Bytes and words *)

Lemma byteZ_range b : 0 <= byteZ b < 256.
Proof.
  unfold byteZ. pose proof (Byte.to_N_bounded b). lia.
Qed.

Lemma byteZ_of_Z z : byteZ (byte_of_Z z) = z mod 256.
Proof.
  unfold byteZ, byte_of_Z.
  assert (Hr : 0 <= z mod 256 < 256) by (apply Z.mod_pos_bound; lia).
  destruct (Byte.of_N (Z.to_N (z mod 256))) as [b|] eqn:E.
  - apply Byte.to_of_N in E. rewrite E. lia.
  - apply Byte.of_N_None_iff in E. lia.
Qed.

Lemma byte_of_Z_byteZ b : byte_of_Z (byteZ b) = b.
Proof.
  unfold byte_of_Z, byteZ. pose proof (Byte.to_N_bounded b) as Hb.
  rewrite Z.mod_small by lia. rewrite N2Z.id, Byte.of_to_N. reflexivity.
Qed.

Lemma wrap32_range z : 0 <= wrap32 z < 2 ^ 32.
Proof. unfold wrap32. apply Z.mod_pos_bound. lia. Qed.

Lemma wrap32_small z : 0 <= z < 2 ^ 32 -> wrap32 z = z.
Proof. intros. unfold wrap32. apply Z.mod_small. assumption. Qed.

Lemma wrap_int64_small z : - 2 ^ 63 <= z < 2 ^ 63 -> wrap_int64 z = z.
Proof. intros. unfold wrap_int64. rewrite Z.mod_small by lia. lia. Qed.

Lemma be32_range bs : 0 <= be32 bs < 2 ^ 32.
Proof.
  unfold be32.
  destruct bs as [|b0 [|b1 [|b2 [|b3 [|? ?]]]]]; try lia.
  pose proof (byteZ_range b0). pose proof (byteZ_range b1).
  pose proof (byteZ_range b2). pose proof (byteZ_range b3). lia.
Qed.

Lemma be32_put32 v : 0 <= v < 2 ^ 32 -> be32 (put32 v) = v.
Proof.
  intros Hv. unfold be32, put32. rewrite !byteZ_of_Z.
  change (2 ^ 24) with 16777216. change (2 ^ 16) with 65536. change (2 ^ 8) with 256.
  change (2 ^ 32) with 4294967296 in Hv.
  Z.to_euclidean_division_equations. lia.
Qed.

Lemma length_put32 v : length (put32 v) = 4%nat.
Proof. reflexivity. Qed.

(** ** Reading from a connection *)

Lemma conn_bytes_drop n c : conn_bytes (conn_drop n c) = drop n (conn_bytes c).
Proof.
  revert n. induction c as [|seg rest IH]; intros n; simpl.
  - by rewrite drop_nil.
  - unfold conn_bytes in *. simpl.
    destruct (Nat.leb_spec n (length seg)) as [Hle|Hgt]; simpl.
    + rewrite drop_app_le by lia. reflexivity.
    + rewrite IH. rewrite drop_app_ge by lia. reflexivity.
Qed.


Lemma conn_drop_drop n m c : conn_drop n (conn_drop m c) = conn_drop (m + n) c.
Proof.
  revert n m. induction c as [|seg rest IH]; intros n m; simpl; [done|].
  destruct (Nat.leb_spec m (length seg)) as [Hle|Hgt]; simpl.
  - rewrite length_drop.
    destruct (Nat.leb_spec n (length seg - m)) as [Hle'|Hgt'];
      destruct (Nat.leb_spec (m + n) (length seg)) as [Hle''|Hgt'']; try lia.
    + by rewrite drop_drop.
    + f_equal. lia.
  - rewrite IH. destruct (Nat.leb_spec (m + n) (length seg)); [lia|].
    f_equal. lia.
Qed.

Lemma ReadFull_prefix n c pre rest :
  conn_bytes c = pre ++ rest -> length pre = n ->
  ReadFull n c = Ok (pre, conn_drop n c) /\ conn_bytes (conn_drop n c) = rest.
Proof.
  intros Hc Hn. unfold ReadFull. rewrite conn_bytes_drop, Hc.
  rewrite length_app.
  destruct (Nat.leb_spec n (length pre + length rest)); [|lia].
  subst n. rewrite take_app_length, drop_app_length. done.
Qed.

Lemma read_uint32_prefix c v rest :
  0 <= v < 2 ^ 32 -> conn_bytes c = put32 v ++ rest ->
  read_uint32 c = ([], Ok (v, conn_drop 4 c)) /\ conn_bytes (conn_drop 4 c) = rest.
Proof.
  intros Hv Hc.
  destruct (ReadFull_prefix 4 c (put32 v) rest Hc eq_refl) as [HR Hrest].
  split; [|exact Hrest].
  unfold read_uint32, pure_res. rewrite HR. simpl. by rewrite be32_put32.
Qed.

Lemma read_byte_prefix c b rest :
  conn_bytes c = b :: rest ->
  read_byte c = ([], Ok (byteZ b, conn_drop 1 c)) /\ conn_bytes (conn_drop 1 c) = rest.
Proof.
  intros Hc.
  destruct (ReadFull_prefix 1 c [b] rest Hc eq_refl) as [HR Hrest].
  split; [|exact Hrest].
  unfold read_byte, pure_res. by rewrite HR.
Qed.

(** ** Frames *)

(** The header of a frame whose length prefix is [L]: after it the loop
    is in the [switch], at the first byte after the message id. *)
Lemma run_iter_header t s c L b rest :
  1 <= L < 2 ^ 32 ->
  conn_bytes c = put32 L ++ b :: rest ->
  run_iter t s c =
    ('(s', c') ← dispatch t s (byteZ b) (L - 1) (conn_drop 5 c);
     mret (with_first false s', c')) /\
  conn_bytes (conn_drop 5 c) = rest.
Proof.
  intros HL Hc.
  destruct (read_uint32_prefix c L (b :: rest)) as [H4 Hc4]; [lia|done|].
  destruct (read_byte_prefix (conn_drop 4 c) b rest Hc4) as [H1 Hc1].
  rewrite conn_drop_drop in H1, Hc1. simpl in H1, Hc1.
  split; [|exact Hc1].
  unfold run_iter. rewrite H4. simpl.
  destruct (Z.eqb_spec L 0) as [|_]; [lia|].
  rewrite H1. simpl. rewrite (wrap32_small (L - 1)) by lia.
  destruct (dispatch t s (byteZ b) (L - 1) (conn_drop 5 c)) as [es [[s' c']| |]]; reflexivity.
Qed.


(** An iteration that goes on leaves only a suffix of the bytes. *)
Lemma run_iter_first t s c es s' c' :
  run_iter t s c = (es, Ok (s', c')) ->
  first s' = first s /\ s' = s \/ first s' = false.
Proof.
  unfold run_iter. intros H.
  destruct (read_uint32 c) as [es1 [[L c1]| |]]; simpl in H; try discriminate.
  destruct (L =? 0).
  - simpl in H. inversion H; subst. by left.
  - destruct (read_byte c1) as [es2 [[ty c2]| |]]; simpl in H; try discriminate.
    destruct (dispatch t s ty (wrap32 (L - 1)) c2) as [es3 [[s3 c3]| |]];
      simpl in H; try discriminate.
    inversion H; subst. by right.
Qed.

(** ** The monad of the loop *)

Lemma bind_pure {A B} (a : A) (k : A -> io B) : (([], Ok a) : io A) ≫= k = k a.
Proof. unfold mbind, io_bind. by destruct (k a). Qed.

Lemma bind_mret {A B} (a : A) (k : A -> io B) : mret a ≫= k = k a.
Proof. apply bind_pure. Qed.

Ltac io_simpl :=
  cbn [mbind io_bind mret io_ret tell raise panic pure_res app].

Ltac io_simpl_in H :=
  cbn [mbind io_bind mret io_ret tell raise panic pure_res app] in H.

(** ** PIECE messages *)

(** The [switch] case of a PIECE message whose index and offset are on the
    wire, with the reads resolved. *)
Lemma on_piece_eq t s len c idx begin rest :
  0 <= idx < 2 ^ 32 -> 0 <= begin < 2 ^ 32 ->
  conn_bytes c = put32 idx ++ put32 begin ++ rest ->
  on_piece t s len c =
    (if len32 (pieces t) <=? idx then raise (ErrNew "unexpected piece index")
     else
       pc ← index (pieces t) idx;
       if negb (begin mod blockSize =? 0) then raise (ErrNew "unexpected piece offset")
       else if len32 (p_blocks pc) <=? begin / blockSize
       then raise (ErrNew "unexpected piece offset")
       else
         blk ← index (p_blocks pc) (begin / blockSize);
         if negb (wrap32 (len - 8) =? b_length blk) then raise (ErrNew "unexpected block size")
         else
           _ ← tell (Alloc (wrap32 (len - 8)));
           '(got, c') ← pure_res (limit_Read (Z.to_nat (wrap32 (len - 8))) (conn_drop 8 c));
           _ ← tell (SendBlock idx (begin / blockSize)
                       (fill (repeat x00 (Z.to_nat (wrap32 (len - 8)))) got));
           mret (s, c')) /\
  conn_bytes (conn_drop 8 c) = rest.
Proof.
  intros Hi Hb Hc.
  destruct (read_uint32_prefix c idx _ Hi Hc) as [R1 C1].
  destruct (read_uint32_prefix _ begin _ Hb C1) as [R2 C2].
  rewrite conn_drop_drop in R2, C2. simpl Nat.add in R2, C2.
  split; [|exact C2].
  unfold on_piece. rewrite R1, bind_pure.
  destruct (len32 (pieces t) <=? idx); [reflexivity|].
  unfold index. destruct (pieces t !! Z.to_nat idx) as [pc|]; [|reflexivity].
  rewrite !bind_mret, R2, bind_pure. reflexivity.
Qed.

Lemma len32_le {A} (xs : list A) : len32 xs <= Z.of_nat (length xs).
Proof.
  unfold len32, wrap32. apply Z.mod_le; lia.
Qed.

(** An iteration on a PIECE frame goes on only when every check has
    passed, and then it has allocated the buffer and sent one block, filled
    by a single read, on the block channel of the piece. *)
Lemma run_iter_piece_checks t s c L idx begin rest es s' c' :
  1 <= L < 2 ^ 32 -> 0 <= idx < 2 ^ 32 -> 0 <= begin < 2 ^ 32 ->
  conn_bytes c = piece_header L idx begin ++ rest ->
  run_iter t s c = (es, Ok (s', c')) ->
  idx < len32 (pieces t) /\ begin mod blockSize = 0 /\
  exists pc blk got,
    pieces t !! Z.to_nat idx = Some pc /\
    begin / blockSize < len32 (p_blocks pc) /\
    p_blocks pc !! Z.to_nat (begin / blockSize) = Some blk /\
    wrap32 (L - 9) = b_length blk /\
    limit_Read (Z.to_nat (b_length blk)) (conn_drop 13 c) = Ok (got, c') /\
    es = [Alloc (b_length blk);
          SendBlock idx (begin / blockSize)
            (fill (repeat x00 (Z.to_nat (b_length blk))) got)] /\
    s' = with_first false s.
Proof.
  intros HL Hi Hb Hc H.
  unfold piece_header in Hc. rewrite <- !app_assoc in Hc. simpl in Hc.
  destruct (run_iter_header t s c L _ _ HL Hc) as [E C5].
  rewrite E in H. clear E.
  change (byteZ (byte_of_Z msgPiece)) with 7 in H.
  change (dispatch t s 7 (L - 1) (conn_drop 5 c))
    with (on_piece t s (L - 1) (conn_drop 5 c)) in H.
  destruct (on_piece_eq t s (L - 1) _ idx begin rest Hi Hb C5) as [E _].
  rewrite E in H. clear E.
  rewrite conn_drop_drop in H. simpl Nat.add in H.
  replace (L - 1 - 8) with (L - 9) in H by lia.
  destruct (Z.leb_spec (len32 (pieces t)) idx) as [|Hidx]; [discriminate|].
  unfold index in H.
  destruct (pieces t !! Z.to_nat idx) as [pc|] eqn:Hpc; [|discriminate].
  rewrite bind_mret in H.
  destruct (Z.eqb_spec (begin mod blockSize) 0) as [Hmod|]; [|discriminate].
  simpl negb in H.
  destruct (Z.leb_spec (len32 (p_blocks pc)) (begin / blockSize)) as [|Hbi]; [discriminate|].
  destruct (p_blocks pc !! Z.to_nat (begin / blockSize)) as [blk|] eqn:Hblk; [|discriminate].
  rewrite bind_mret in H.
  destruct (Z.eqb_spec (wrap32 (L - 9)) (b_length blk)) as [Hlen|]; [|discriminate].
  simpl negb in H. rewrite Hlen in H.
  destruct (limit_Read (Z.to_nat (b_length blk)) (conn_drop 13 c)) as [[got c1]| |] eqn:HR;
    io_simpl_in H; try discriminate.
  inversion H; subst.
  split; [done|]. split; [done|]. exists pc, blk, got. by rewrite Hlen.
Qed.

(** C9: a PIECE frame whose length prefix is below 9 and whose index and
    offset pass the checks: the body length, [length - 1 - 8] in [uint32],
    wraps to at least 2^32 - 8; no block is that long, so the iteration
    logs "unexpected block size" and [run] returns, and nothing was
    allocated or sent before. *)
Theorem piece_short_frame_rejected t s c L idx begin rest pc blk :
  1 <= L < 9 -> 0 <= idx < 2 ^ 32 -> 0 <= begin < 2 ^ 32 ->
  conn_bytes c = piece_header L idx begin ++ rest ->
  idx < len32 (pieces t) -> pieces t !! Z.to_nat idx = Some pc ->
  begin mod blockSize = 0 ->
  begin / blockSize < len32 (p_blocks pc) ->
  p_blocks pc !! Z.to_nat (begin / blockSize) = Some blk ->
  b_length blk <= blockSize ->
  2 ^ 32 - 8 <= wrap32 (wrap32 (L - 1) - 8) /\
  run_iter t s c = ([], Fail (ErrNew "unexpected block size")) /\
  forall fuel, run_loop (S fuel) t s c = Some ([], Returned (ErrNew "unexpected block size") s).
Proof.
  intros HL Hi Hb Hc Hidx Hpc Hmod Hbi Hblk Hlen.
  assert (Hw : wrap32 (wrap32 (L - 1) - 8) = 2 ^ 32 + L - 9).
  { rewrite (wrap32_small (L - 1)) by lia. unfold wrap32.
    symmetry. apply (Z.mod_unique _ _ (-1)); lia. }
  assert (HR : run_iter t s c = ([], Fail (ErrNew "unexpected block size"))).
  { unfold piece_header in Hc. rewrite <- !app_assoc in Hc. simpl in Hc.
    destruct (run_iter_header t s c L _ _ ltac:(lia) Hc) as [E C5].
    rewrite E. clear E.
    change (byteZ (byte_of_Z msgPiece)) with 7.
    change (dispatch t s 7 (L - 1) (conn_drop 5 c))
      with (on_piece t s (L - 1) (conn_drop 5 c)).
    destruct (on_piece_eq t s (L - 1) _ idx begin rest Hi Hb C5) as [E _].
    rewrite E. clear E.
    destruct (Z.leb_spec (len32 (pieces t)) idx); [lia|].
    unfold index. rewrite Hpc, bind_mret.
    rewrite Hmod. simpl negb. cbv iota.
    destruct (Z.leb_spec (len32 (p_blocks pc)) (begin / blockSize)); [lia|].
    rewrite Hblk, bind_mret.
    rewrite (wrap32_small (L - 1)) in Hw by lia. rewrite Hw.
    destruct (Z.eqb_spec (2 ^ 32 + L - 9) (b_length blk)) as [Heq|_].
    - unfold blockSize in Hlen. lia.
    - reflexivity. }
  split; [lia|]. split; [exact HR|].
  intros fuel. simpl. by rewrite HR.
Qed.

Lemma piece_short_frame_rejected_witness :
  run_iter Examples.small (start Examples.small newPeerConn)
    [piece_header 5 0 0] = ([], Fail (ErrNew "unexpected block size")).
Proof.
  refine (proj1 (proj2 (piece_short_frame_rejected Examples.small
            (start Examples.small newPeerConn) [piece_header 5 0 0] 5 0 0 []
            Examples.small_piece {| b_index := 0; b_length := 4 |}
            _ _ _ _ _ _ _ _ _ _))); vm_compute; try reflexivity;
    try (split; congruence); congruence.
Defined.

(** ** REQUEST, CANCEL and PORT messages *)

(** The three empty [switch] cases read nothing: the iteration ends at the
    first byte after the message id, with the body still on the
    connection, and the only change is [first = false]. *)
Lemma run_iter_ignored t s c L b rest :
  1 <= L < 2 ^ 32 ->
  byteZ b = msgRequest \/ byteZ b = msgCancel \/ byteZ b = msgPort ->
  conn_bytes c = put32 L ++ b :: rest ->
  run_iter t s c = ([], Ok (with_first false s, conn_drop 5 c)) /\
  conn_bytes (conn_drop 5 c) = rest.
Proof.
  intros HL Hb Hc.
  destruct (run_iter_header t s c L b rest HL Hc) as [E C5].
  split; [|exact C5]. rewrite E.
  destruct Hb as [-> | [-> | ->]]; reflexivity.
Qed.

Lemma conn_bytes_discard n c : conn_bytes (discard n c) = drop (Z.to_nat n) (conn_bytes c).
Proof.
  unfold discard. rewrite conn_bytes_drop.
  destruct (Z.min_spec n (Z.of_nat (length (conn_bytes c)))) as [[_ ->]|[Hle ->]]; [done|].
  rewrite Nat2Z.id, !drop_ge; [done|lia|lia].
Qed.

(** An unknown message id: the body is discarded, as [io.CopyN] does. *)
Lemma run_iter_unknown t s c L b rest :
  1 <= L < 2 ^ 32 -> msgPort < byteZ b ->
  conn_bytes c = put32 L ++ b :: rest ->
  exists c',
    run_iter t s c = ([], Ok (with_first false s, c')) /\
    conn_bytes c' = drop (Z.to_nat (L - 1)) rest.
Proof.
  intros HL Hb Hc.
  destruct (run_iter_header t s c L b rest HL Hc) as [E C5].
  exists (discard (L - 1) (conn_drop 5 c)).
  rewrite conn_bytes_discard, C5.
  split; [|reflexivity]. rewrite E.
  unfold dispatch, msgPort in *.
  repeat match goal with
         | |- context [byteZ b =? ?k] => destruct (Z.eqb_spec (byteZ b) k); [unfold
             msgChoke, msgUnchoke, msgInterested, msgNotInterested, msgHave, msgBitfield,
             msgRequest, msgPiece, msgCancel, msgPort in *; lia|]
         end.
  reflexivity.
Qed.

(** C2: a REQUEST for piece 1 at offset 2^24, as [sendRequest] writes it,
    is not skipped.  The iteration that reads it ends with the twelve bytes
    of its body still on the connection, and the loop reads them as the
    next frames: the index is taken for a length prefix of 1 and the first
    byte of the offset for the message id of UNCHOKE, so the unchoke
    channel is closed and [peerChoking] becomes false; the rest is read as
    a keep-alive and the start of a frame that never ends. *)
Theorem request_body_read_as_frames :
  let s := start Examples.sixteen newPeerConn in
  let body := put32 1 ++ put32 (2 ^ 24) ++ put32 16384 in
  let c := [request_frame 1 (2 ^ 24) 16384] in
  conn_bytes c = frame msgRequest body /\
  run_iter Examples.sixteen s c = ([], Ok (with_first false s, [body])) /\
  peerChoking (peer s) = true /\
  run Examples.sixteen newPeerConn None c
  = Some ([CloseChan 0],
          Returned ErrUnexpectedEOF
            (with_first false
               (with_peer (set_unchokeC 1 (set_peerChoking false (peer s))) s))).
Proof.
  repeat split; by vm_compute.
Qed.

(** ** Reads of a body *)

(** A single read takes from the first segment only. *)
Lemma Read_seg_cons n seg rest :
  seg <> [] ->
  Read_seg n (seg :: rest)
  = Ok (take n seg, if (n <? length seg)%nat then drop n seg :: rest else rest).
Proof. intros Hne. destruct seg; [done|reflexivity]. Qed.

(** It gives the whole body when the first segment holds it. *)
Lemma Read_seg_whole body seg rest :
  body <> [] ->
  Read_seg (length body) ((body ++ seg) :: rest)
  = Ok (body, if decide (seg = []) then rest else seg :: rest).
Proof.
  intros Hne. rewrite Read_seg_cons by (destruct body; done).
  rewrite take_app_length, length_app.
  destruct (decide (seg = [])) as [->|Hseg].
  - rewrite Nat.add_0_r, Nat.ltb_irrefl. reflexivity.
  - destruct (Nat.ltb_spec (length body) (length body + length seg)).
    + by rewrite drop_app_length.
    + destruct seg; [done|]. simpl length in *. lia.
Qed.

(** C3: the PIECE message of the first scenario of the specification,
    the block of 16384 bytes "A" of a torrent of one piece, every check
    passed, that arrives in two segments: the first segment, of 1460 bytes,
    holds the 13 bytes up to the offset and 1447 bytes of the body.  The
    single read of the body returns those 1447 bytes: the block that is sent
    holds them and 14937 zero bytes, not the body; the rest of the body
    stays on the connection, where the loop takes its first bytes for the
    next length prefix and message id and discards what follows. *)
Theorem piece_body_in_two_segments :
  let body := Examples.letters in
  let s := start Examples.single newPeerConn in
  let c := [piece_header 16393 0 0 ++ take 1447 body; drop 1447 body] in
  let data := take 1447 body ++ repeat x00 14937 in
  conn_bytes c = frame msgPiece (put32 0 ++ put32 0 ++ body) /\
  run_iter Examples.single s c
    = ([Alloc 16384; SendBlock 0 0 data], Ok (with_first false s, [drop 1447 body])) /\
  data <> body /\
  run Examples.single newPeerConn None c
    = Some ([Alloc 16384; SendBlock 0 0 data], Returned EOF (with_first false s)).
Proof.
  intros body s c data.
  split; [by vm_compute|]. split; [by vm_compute|]. split; [|by vm_compute].
  intros H. apply (f_equal (fun l => l !! 1447%nat)) in H. vm_compute in H. discriminate H.
Qed.

(** When every check passes and the first segment after the offset holds
    the whole body, the block that is sent is the body. *)
Lemma run_iter_piece_whole t s c idx begin pc blk body seg more :
  0 <= idx < 2 ^ 32 -> 0 <= begin < 2 ^ 32 ->
  body <> [] -> 9 + Z.of_nat (length body) < 2 ^ 32 ->
  conn_bytes c = piece_header (9 + Z.of_nat (length body)) idx begin ++ body ++ seg ++ concat more ->
  conn_drop 13 c = (body ++ seg) :: more ->
  idx < len32 (pieces t) -> pieces t !! Z.to_nat idx = Some pc ->
  begin mod blockSize = 0 ->
  begin / blockSize < len32 (p_blocks pc) ->
  p_blocks pc !! Z.to_nat (begin / blockSize) = Some blk ->
  b_length blk = Z.of_nat (length body) ->
  run_iter t s c =
    ([Alloc (b_length blk); SendBlock idx (begin / blockSize) body],
     Ok (with_first false s, if decide (seg = []) then more else seg :: more)).
Proof.
  intros Hi Hb Hne HL Hc Hd Hidx Hpc Hmod Hbi Hblk Hlen.
  unfold piece_header in Hc. rewrite <- !app_assoc in Hc. simpl in Hc.
  destruct (run_iter_header t s c (9 + Z.of_nat (length body)) _ _ ltac:(lia) Hc) as [E C5].
  rewrite E. clear E.
  change (byteZ (byte_of_Z msgPiece)) with 7.
  change (dispatch t s 7 ?l ?c) with (on_piece t s l c).
  destruct (on_piece_eq t s (9 + Z.of_nat (length body) - 1) _ idx begin _ Hi Hb C5) as [E _].
  rewrite E. clear E.
  rewrite conn_drop_drop. simpl Nat.add. rewrite Hd.
  destruct (Z.leb_spec (len32 (pieces t)) idx); [lia|].
  unfold index. rewrite Hpc, bind_mret, Hmod. simpl negb. cbv iota.
  destruct (Z.leb_spec (len32 (p_blocks pc)) (begin / blockSize)); [lia|].
  rewrite Hblk, bind_mret.
  replace (9 + Z.of_nat (length body) - 1 - 8) with (Z.of_nat (length body)) by lia.
  rewrite wrap32_small by lia. rewrite Hlen, Z.eqb_refl. simpl negb. cbv iota.
  rewrite Nat2Z.id. unfold limit_Read.
  destruct (length body) as [|n] eqn:Hn; [by destruct body|].
  rewrite <- Hn, Read_seg_whole by done.
  io_simpl. unfold fill. rewrite drop_ge, app_nil_r by (rewrite repeat_length; lia).
  reflexivity.
Qed.

(** ** BITFIELD messages *)

Lemma run_iter_bitfield t s c L rest :
  1 <= L < 2 ^ 32 ->
  conn_bytes c = put32 L ++ byte_of_Z msgBitfield :: rest ->
  run_iter t s c =
    ('(s', c') ← on_bitfield t s (L - 1) (conn_drop 5 c);
     mret (with_first false s', c')) /\
  conn_bytes (conn_drop 5 c) = rest.
Proof.
  intros HL Hc. destruct (run_iter_header t s c L _ _ HL Hc) as [E C5].
  split; [|exact C5]. rewrite E. reflexivity.
Qed.

(** A BITFIELD that is not the first message ends the connection; nothing
    was sent to the transfer. *)
Lemma bitfield_late t s c L rest :
  1 <= L < 2 ^ 32 -> first s = false ->
  conn_bytes c = put32 L ++ byte_of_Z msgBitfield :: rest ->
  run_iter t s c = ([], Fail (ErrNew "bitfield can only be sent after handshake")).
Proof.
  intros HL Hf Hc. destruct (run_iter_bitfield t s c L rest HL Hc) as [E _].
  rewrite E. unfold on_bitfield. rewrite Hf. reflexivity.
Qed.

(** A first BITFIELD of another length than the local bit field ends the
    connection. *)
Lemma bitfield_bad_length t s c L rest :
  1 <= L < 2 ^ 32 -> first s = true ->
  L - 1 <> Z.of_nat (length (Bytes (view s))) ->
  conn_bytes c = put32 L ++ byte_of_Z msgBitfield :: rest ->
  run_iter t s c = ([], Fail (ErrNew "invalid bitfield length")).
Proof.
  intros HL Hf Hlen Hc. destruct (run_iter_bitfield t s c L rest HL Hc) as [E _].
  rewrite E. unfold on_bitfield. rewrite Hf. simpl negb. cbv iota.
  destruct (Z.eqb_spec (L - 1) (Z.of_nat (length (Bytes (view s))))); [done|reflexivity].
Qed.

(** A first BITFIELD of the right length is read into the local bit
    field. *)
Lemma bitfield_first t s c body rest :
  first s = true -> length body = length (Bytes (view s)) ->
  1 + Z.of_nat (length body) < 2 ^ 32 ->
  conn_bytes c = frame msgBitfield body ++ rest ->
  run_iter t s c =
    ('(s', c') ← read_bitfield t s (conn_drop 5 c); mret (with_first false s', c')) /\
  conn_bytes (conn_drop 5 c) = body ++ rest.
Proof.
  intros Hf Hlen HL Hc. unfold frame in Hc. rewrite <- app_assoc in Hc. simpl in Hc.
  destruct (run_iter_bitfield t s c (1 + Z.of_nat (length body)) _ ltac:(lia) Hc) as [E C5].
  split; [|exact C5]. rewrite E. unfold on_bitfield. rewrite Hf. simpl negb. cbv iota.
  replace (1 + Z.of_nat (length body) - 1) with (Z.of_nat (length (Bytes (view s))))
    by (rewrite <- Hlen; lia).
  rewrite Z.eqb_refl. reflexivity.
Qed.

(** The local bit field of [run] takes ceil(n/8) bytes for [n] pieces. *)
Lemma newBitField_bytes n :
  0 <= n -> Z.of_nat (length (Bytes (newBitField n))) = (n + 7) / 8.
Proof.
  intros Hn. unfold newBitField. simpl. rewrite repeat_length.
  rewrite Z2Nat.id; [done|]. apply Z.div_pos; lia.
Qed.

(** The loop over the bits sends one [peerHave] for each set bit, in
    increasing order, when every position names a piece. *)
Lemma send_haves_filter t b ps :
  Forall (fun i => 0 <= i < Z.of_nat (length (pieces t))) ps ->
  send_haves t b ps = (map SendHave (filter (fun i => Test b i = true) ps), Ok tt).
Proof.
  induction 1 as [|i ps Hi _ IH]; [reflexivity|].
  simpl send_haves. rewrite filter_cons.
  destruct (Test b i) eqn:Ht.
  - rewrite decide_True by done.
    unfold index. destruct (lookup_lt_is_Some_2 (pieces t) (Z.to_nat i)) as [pc Hpc]; [lia|].
    rewrite Hpc, bind_mret. rewrite IH. reflexivity.
  - rewrite decide_False by done. exact IH.
Qed.

(** An iteration that goes on after a frame that is no keep-alive has
    cleared [first]; one that goes on with [first] still set was a
    keep-alive and changed nothing. *)
Lemma run_iter_first_kept t s c es s' c' :
  run_iter t s c = (es, Ok (s', c')) -> first s' = true ->
  s' = s /\ es = [] /\ exists rest, conn_bytes c = keep_alive ++ rest /\ conn_bytes c' = rest.
Proof.
  unfold run_iter, read_uint32, pure_res. intros H Hf.
  unfold ReadFull in H.
  destruct (Nat.leb_spec 4 (length (conn_bytes c))) as [Hlen|];
    [|destruct (conn_bytes c); discriminate].
  rewrite bind_pure in H.
  io_simpl_in H.
  destruct (Z.eqb_spec (be32 (take 4 (conn_bytes c))) 0) as [Hz|Hnz].
  - inversion H; subst. split; [done|]. split; [done|].
    exists (drop 4 (conn_bytes c)). rewrite conn_bytes_drop. split; [|done].
    rewrite <- (take_drop 4 (conn_bytes c)) at 1. f_equal.
    destruct (conn_bytes c) as [|b0 [|b1 [|b2 [|b3 l]]]]; simpl in Hlen; try lia.
    simpl take in *. rewrite ?take_0 in *. unfold be32 in Hz.
    pose proof (byteZ_range b0). pose proof (byteZ_range b1).
    pose proof (byteZ_range b2). pose proof (byteZ_range b3).
    assert (byteZ b0 = 0 /\ byteZ b1 = 0 /\ byteZ b2 = 0 /\ byteZ b3 = 0) as (E0 & E1 & E2 & E3) by lia.
    rewrite <- (byte_of_Z_byteZ b0), <- (byte_of_Z_byteZ b1),
      <- (byte_of_Z_byteZ b2), <- (byte_of_Z_byteZ b3), E0, E1, E2, E3.
    reflexivity.
  - destruct (read_byte (conn_drop 4 c)) as [es2 [[ty c2]| |]]; io_simpl_in H; try discriminate.
    destruct (dispatch t s ty _ c2) as [es3 [[s3 c3]| |]]; io_simpl_in H; try discriminate.
    inversion H; subst. discriminate.
Qed.

Lemma upto_range n : Forall (fun i => 0 <= i < Z.max 0 n) (upto n).
Proof.
  unfold upto. apply Forall_forall. intros i Hi.
  apply list_elem_of_In, in_map_iff in Hi. destruct Hi as (k & <- & Hk).
  apply in_seq in Hk. lia.
Qed.

(** A first BITFIELD of the right length whose body the first segment
    holds: the local bit field becomes the body, and one [peerHave] is sent
    for each set bit. *)
Lemma bitfield_whole t s c body seg more :
  first s = true -> length body = length (Bytes (view s)) ->
  1 + Z.of_nat (length body) < 2 ^ 32 ->
  Len (view s) <= Z.of_nat (length (pieces t)) ->
  conn_bytes c = frame msgBitfield body ++ seg ++ concat more ->
  conn_drop 5 c = (body ++ seg) :: more ->
  exists c',
    run_iter t s c =
      (map SendHave (filter (fun i => Test (with_Bytes (view s) body) i = true)
                       (upto (Len (view s)))),
       Ok (with_first false (with_view (with_Bytes (view s) body) s), c')) /\
    conn_bytes c' = seg ++ concat more.
Proof.
  intros Hf Hlen HL Hn Hc Hd.
  destruct (bitfield_first t s c body (seg ++ concat more) Hf Hlen HL Hc) as [E _].
  assert (HR : exists c', conn_Read (length (Bytes (view s))) (conn_drop 5 c) = Ok (body, c')
                          /\ conn_bytes c' = seg ++ concat more).
  { rewrite Hd, <- Hlen. destruct body as [|b body].
    - eexists. split; [reflexivity|]. unfold conn_bytes. simpl. reflexivity.
    - change (conn_Read (length (b :: body))) with (Read_seg (length (b :: body))).
      rewrite Read_seg_whole by done. eexists. split; [reflexivity|].
      unfold conn_bytes. destruct (decide (seg = [])) as [->|]; reflexivity. }
  destruct HR as (c' & HR & Hc'). exists c'. split; [|exact Hc'].
  rewrite E. unfold read_bitfield. rewrite HR. unfold pure_res. rewrite bind_pure.
  assert (Hfill : fill (Bytes (view s)) body = body).
  { unfold fill. rewrite drop_ge by lia. apply app_nil_r. }
  rewrite Hfill. cbn [Len with_Bytes].
  rewrite send_haves_filter.
  - io_simpl. by rewrite ?app_nil_r.
  - eapply Forall_impl; [apply upto_range|]. simpl. intros i Hi. lia.
Qed.

(** C4: a BITFIELD as the first message of a peer of the torrent of
    sixteen pieces, of the right length, two bytes, that arrive in two
    segments.  The single read returns the first byte: the local bit field
    becomes 0x80 0x00 and [peerHave] is sent for piece 0 only, though bit
    15 is set in the message; the second byte stays on the connection.
    With both bytes in one segment the bit field becomes the body and
    [peerHave] is sent for pieces 0 and 15. *)
Theorem bitfield_body_in_two_segments :
  let body := [x80; x01] in
  let s := start Examples.sixteen newPeerConn in
  let c := [put32 3 ++ [byte_of_Z msgBitfield; x80]; [x01]] in
  conn_bytes c = frame msgBitfield body /\
  run_iter Examples.sixteen s c
    = ([SendHave 0],
       Ok (with_first false (with_view (with_Bytes (view s) [x80; x00]) s), [[x01]])) /\
  run_iter Examples.sixteen s [frame msgBitfield body]
    = ([SendHave 0; SendHave 15],
       Ok (with_first false (with_view (with_Bytes (view s) body) s), [])).
Proof.
  repeat split; by vm_compute.
Qed.

(** The fifth scenario of the specification: HAVE(0), then a BITFIELD.
    The connection ends with the bit of piece 0 set in the local bit field
    and nothing sent for the BITFIELD. *)
Lemma have_then_bitfield :
  let s := start Examples.sixteen newPeerConn in
  run Examples.sixteen newPeerConn None
    [frame msgHave (put32 0) ++ frame msgBitfield [x80; x01]]
  = Some ([SendHave 0],
          Returned (ErrNew "bitfield can only be sent after handshake")
            (with_first false (with_view (SetBit (view s) 0) s))).
Proof. by vm_compute. Qed.

(** The sixth scenario: HAVE(7) on a torrent of four pieces. *)
Lemma have_out_of_range :
  let t := {| pieces := map Examples.block_piece (upto 4); t_bitField := newBitField 4;
              PieceLength := 16384; TotalLength := 4 * 16384 |} in
  run t newPeerConn None [frame msgHave (put32 7)]
  = Some ([], Returned (ErrNew "unexpected piece index") (start t newPeerConn)).
Proof. by vm_compute. Qed.

(** ** Keep-alives *)





(** ** [downloadPiece] *)

Lemma beInterested_chan wr p : (beInterested wr p).1.2 = unchokeC p.
Proof.
  unfold beInterested. destruct (peerChoking p), (onceInterested p); reflexivity.
Qed.

(** C1: a call of [downloadPiece] returns [nil] only with [downloaded]
    set and only when the SHA-1 of the piece buffer it has put together is
    the digest of the piece; it changes [downloaded] only when it returns
    [nil]; when the buffer is put together and its SHA-1 is the digest the
    call does set [downloaded] and return [nil]; when its SHA-1 is another
    the call returns "received corrupt piece" and leaves [downloaded] as
    it was. *)
Theorem downloadPiece_verified e p pc p1 pc1 r :
  downloadPiece e p pc = (p1, pc1, r) ->
  (r = Ok tt ->
   p_downloaded pc1 = true /\
   exists buf, assembled e p pc = Some buf /\ SHA1.Sum buf = p_sha1 pc) /\
  (p_downloaded pc1 <> p_downloaded pc -> r = Ok tt) /\
  (forall buf, assembled e p pc = Some buf ->
     (SHA1.Sum buf = p_sha1 pc -> r = Ok tt /\ p_downloaded pc1 = true) /\
     (SHA1.Sum buf <> p_sha1 pc ->
      r = Fail (ErrNew "received corrupt piece") /\
      p_downloaded pc1 = p_downloaded pc)).
Proof.
  unfold downloadPiece, assembled. intros H.
  destruct (beInterested (interested_wr e) p) as [[p' ch] [err|]].
  { inversion H; subst. repeat split; try done. }
  destruct (unchoke_wait e) as [[]|].
  2: { inversion H; subst. repeat split; try done. }
  destruct (fetch e p' pc) as [st [[]| |]].
  - cbn [p_sha1 with_received] in H.
    destruct (bool_decide_reflect (SHA1.Sum (pieceData st) = p_sha1 pc)) as [Heq|Hne];
      cbn [negb] in H; inversion H; subst; cbn [p_downloaded set_downloaded with_received].
    + split; [intros _; split; [done|]; by exists (pieceData st)|].
      split; [done|]. intros buf [= <-]. split; [done|]. intros Hd. by destruct Hd.
    + split; [done|]. split; [done|]. intros buf [= <-]. split; [done|]. done.
  - inversion H; subst. repeat split; try done.
  - inversion H; subst. repeat split; try done.
Qed.

Lemma downloadPiece_verified_witness :
  exists p1 pc1,
    downloadPiece (Examples.served (Examples.bytes_of [9; 9; 9; 9]))
      newPeerConn Examples.small_piece
    = (p1, pc1, Fail (ErrNew "received corrupt piece")) /\
    p_downloaded pc1 = false.
Proof.
  destruct (downloadPiece (Examples.served (Examples.bytes_of [9; 9; 9; 9]))
              newPeerConn Examples.small_piece) as [[p1 pc1] r] eqn:E.
  exists p1, pc1.
  destruct (downloadPiece_verified _ _ _ _ _ _ E) as (_ & _ & H).
  destruct (H (Examples.bytes_of [9; 9; 9; 9])) as [_ [-> Hd]].
  - vm_compute. reflexivity.
  - vm_compute. congruence.
  - split; [reflexivity|]. rewrite Hd. reflexivity.
Defined.

(** The first scenario of the specification, on the small torrent: the
    remote sends the content, the call returns [nil] with [downloaded]
    set. *)
Lemma downloadPiece_content :
  exists p1 pc1,
    downloadPiece (Examples.served Examples.content) newPeerConn Examples.small_piece
    = (p1, pc1, Ok tt) /\
    p_downloaded pc1 = true /\
    written p1 = [message_frame msgInterested; request_frame 0 0 4].
Proof.
  do 2 eexists. split; [vm_compute; reflexivity|]. split; reflexivity.
Qed.

(** C5: when [beInterested] has returned without an error and its channel
    is not closed within the minute, [downloadPiece] closes the connection
    and returns an error whose message is "Peer did not unchoke"; the
    piece is as it was. *)
Theorem unchoke_timeout e p pc p1 pc1 r :
  (beInterested (interested_wr e) p).2 = None ->
  unchoke_wait e = TimedOut ->
  downloadPiece e p pc = (p1, pc1, r) ->
  closed p1 = true /\ pc1 = pc /\
  exists err, r = Fail err /\ Error err = "Peer did not unchoke"%string.
Proof.
  unfold downloadPiece. intros Hb Hw H.
  destruct (beInterested (interested_wr e) p) as [[p' ch] err]. simpl in Hb. subst err.
  rewrite Hw in H. inversion H; subst.
  split; [reflexivity|]. split; [reflexivity|]. by eexists.
Qed.

Lemma unchoke_timeout_witness :
  exists p1 err,
    downloadPiece Examples.choked newPeerConn Examples.small_piece
    = (p1, Examples.small_piece, Fail err) /\
    closed p1 = true /\ Error err = "Peer did not unchoke"%string.
Proof.
  destruct (downloadPiece Examples.choked newPeerConn Examples.small_piece)
    as [[p1 pc1] r] eqn:E.
  destruct (unchoke_timeout Examples.choked newPeerConn Examples.small_piece p1 pc1 r
              eq_refl eq_refl E) as (Hc & -> & err & -> & Hm).
  exists p1, err. split; [reflexivity|]. split; [exact Hc|exact Hm].
Defined.

(** C5 as it is worded, with the message in lower case, fails: the message
    of the error starts with a capital letter. *)
Lemma unchoke_timeout_not_lower_case :
  ~ (forall e p pc p1 pc1 r,
       (beInterested (interested_wr e) p).2 = None ->
       unchoke_wait e = TimedOut ->
       downloadPiece e p pc = (p1, pc1, r) ->
       closed p1 = true /\
       exists err, r = Fail err /\ Error err = "peer did not unchoke"%string).
Proof.
  intros H.
  destruct (downloadPiece Examples.choked newPeerConn Examples.small_piece)
    as [[p1 pc1] r] eqn:E.
  destruct (H Examples.choked newPeerConn Examples.small_piece p1 pc1 r
              eq_refl eq_refl E) as (_ & err & -> & Hm).
  vm_compute in E. inversion E; subst. discriminate Hm.
Qed.

(** ** "interested" is written once *)

Lemma request_frame_not_interested i b l :
  request_frame i b l <> message_frame msgInterested.
Proof. intros H. apply (f_equal length) in H. discriminate H. Qed.

Lemma bitfield_frame_not_interested b :
  bitfield_frame b <> message_frame msgInterested.
Proof.
  unfold bitfield_frame, message_frame, put32. intros H.
  injection H as _ _ _ _ H5. discriminate H5.
Qed.

Lemma interested_sent_write f p :
  interested_sent (write f p)
  = (interested_sent p + if decide (f = message_frame msgInterested) then 1 else 0)%nat.
Proof.
  unfold interested_sent, write. cbn [written].
  rewrite filter_app, length_app. f_equal.
  rewrite filter_cons, filter_nil. by destruct (decide _).
Qed.

Lemma once_inv_beInterested wr p : once_inv p -> once_inv (beInterested wr p).1.1.
Proof.
  unfold once_inv, beInterested. intros H.
  destruct (peerChoking p); cbn [negb]; [|exact H].
  destruct (onceInterested p) eqn:Ho; cbn [fst]; [by rewrite Ho|].
  unfold sendMessage. cbn [fst]. rewrite interested_sent_write.
  cbn [onceInterested write set_onceInterested].
  unfold interested_sent in *. cbn [written set_onceInterested].
  destruct (decide _); lia.
Qed.

Lemma once_inv_sendRequest i b l wr p : once_inv p -> once_inv (sendRequest i b l wr p).1.
Proof.
  unfold once_inv, sendRequest. cbn [fst]. intros H.
  rewrite interested_sent_write.
  rewrite decide_False by apply request_frame_not_interested.
  cbn [onceInterested write]. lia.
Qed.

Lemma once_inv_Close p : once_inv p -> once_inv (Close p).
Proof. done. Qed.

Lemma once_inv_request_blocks e i bs : forall n st st' r,
  request_blocks e i bs n st = (st', r) ->
  once_inv (dl_peer st) -> once_inv (dl_peer st').
Proof.
  induction bs as [|b bs IH]; intros n st st' r H Hinv; simpl in H.
  - by inversion H; subst.
  - pose proof (once_inv_sendRequest i (wrap32 (b_index b * blockSize)) (b_length b)
                  (request_wr (e n)) (dl_peer st) Hinv) as Hinv'.
    cbn [fst sendRequest] in Hinv'.
    destruct (request_wr (e n)); [by inversion H; subst|].
    destruct (block_wait (e n)) as [data|]; [|by eapply IH; [exact H|]].
    destruct (negb (len32 data =? b_length b)); [by inversion H; subst|].
    destruct (copy_at _ data (pieceData st)) as [buf| |]; try by inversion H; subst.
    destruct (files_wr (e n)); [by inversion H; subst|].
    by eapply IH; [exact H|].
Qed.

Lemma once_inv_downloadPiece e p pc : once_inv p -> once_inv (downloadPiece e p pc).1.1.
Proof.
  intros Hinv. unfold downloadPiece.
  pose proof (once_inv_beInterested (interested_wr e) p Hinv) as Hb.
  destruct (beInterested (interested_wr e) p) as [[p' ch] [err|]]; cbn [fst] in *; [done|].
  destruct (unchoke_wait e) as [[]|]; [|done].
  destruct (fetch e p' pc) as [st r] eqn:E.
  unfold fetch in E. apply once_inv_request_blocks in E; [|exact Hb].
  destruct r as [[]| |]; [|done|done].
  by destruct (negb _).
Qed.

(** The loop never writes and never touches the [sync.Once]. *)
Lemma run_iter_written t s c es s' c' :
  run_iter t s c = (es, Ok (s', c')) ->
  written (peer s') = written (peer s) /\
  onceInterested (peer s') = onceInterested (peer s).
Proof.
  unfold run_iter. intros H.
  destruct (read_uint32 c) as [es1 [[L c1]| |]]; io_simpl_in H; try discriminate.
  destruct (L =? 0); [by inversion H; subst|].
  destruct (read_byte c1) as [es2 [[ty c2]| |]]; io_simpl_in H; try discriminate.
  destruct (dispatch t s ty (wrap32 (L - 1)) c2) as [es3 [[s3 c3]| |]] eqn:D;
    io_simpl_in H; try discriminate.
  inversion H; subst. clear H. cbn [peer with_first].
  unfold dispatch in D.
  repeat match type of D with
         | (if ?b then _ else _) = _ => destruct b
         end;
    try (io_simpl_in D; inversion D; subst; done).
  - unfold on_have in D.
    destruct (read_uint32 c2) as [? [[i c4]| |]]; io_simpl_in D; try discriminate.
    destruct (_ <=? i); io_simpl_in D; [discriminate|].
    unfold index in D. destruct (pieces t !! _); io_simpl_in D; [|discriminate].
    by inversion D; subst.
  - unfold on_bitfield in D.
    destruct (negb (first s)); [discriminate|].
    destruct (negb _); [discriminate|].
    unfold read_bitfield in D.
    destruct (conn_Read _ c2) as [[got c4]| |]; io_simpl_in D; try discriminate.
    destruct (send_haves _ _ _) as [? [[]| |]]; io_simpl_in D; try discriminate.
    by inversion D; subst.
  - unfold on_piece in D.
    destruct (read_uint32 c2) as [? [[i c4]| |]]; io_simpl_in D; try discriminate.
    destruct (_ <=? i); io_simpl_in D; [discriminate|].
    unfold index in D. destruct (pieces t !! _) as [pc|]; io_simpl_in D; [|discriminate].
    destruct (read_uint32 c4) as [? [[bg c5]| |]]; io_simpl_in D; try discriminate.
    destruct (negb _); [discriminate|].
    destruct (_ <=? _); [discriminate|].
    destruct (p_blocks pc !! _) as [blk|]; io_simpl_in D; [|discriminate].
    destruct (negb _); [discriminate|]. io_simpl_in D.
    destruct (limit_Read _ c5) as [[got c6]| |]; io_simpl_in D; try discriminate.
    by inversion D; subst.
Qed.

Lemma once_inv_step t st o :
  once_inv (peer st.1) -> once_inv (peer (lifetime_step t st o).1).
Proof.
  destruct st as [s c]. cbn [fst]. intros Hinv. destruct o; cbn [lifetime_step].
  - destruct (run_iter t s c) as [es [[s' c']| |]] eqn:E; [|done|done].
    apply run_iter_written in E. destruct E as [Ew Eo]. cbn [fst].
    unfold once_inv, interested_sent in *. by rewrite Ew, Eo.
  - by apply once_inv_beInterested.
  - by apply once_inv_sendRequest.
  - done.
  - by apply once_inv_downloadPiece.
Qed.

Lemma once_inv_lifetime t ops : forall st,
  once_inv (peer st.1) -> once_inv (peer (lifetime t ops st).1).
Proof.
  induction ops as [|o ops IH]; intros st Hinv; [done|].
  apply IH. by apply once_inv_step.
Qed.

(** C6: whatever the loop and the downloaders of a peer do, in whatever
    order, "interested" is written to the connection at most once; and
    [beInterested] on a peer that does not choke us returns the current
    unchoke channel and no error and leaves the peer, its writes included,
    as it is. *)
Theorem interested_at_most_once :
  (forall t ops c,
     (interested_sent (peer (lifetime t ops (start t newPeerConn, c)).1) <= 1)%nat) /\
  (forall wr p, peerChoking p = false -> beInterested wr p = (p, unchokeC p, None)).
Proof.
  split.
  - intros t ops c.
    assert (H0 : once_inv (peer (start t newPeerConn, c).1)).
    { unfold once_inv, interested_sent. cbn [fst start peer written write newPeerConn onceInterested app].
      rewrite filter_cons, decide_False by apply bitfield_frame_not_interested.
      done. }
    pose proof (once_inv_lifetime t ops _ H0) as H. unfold once_inv in H.
    destruct (onceInterested _); lia.
  - intros wr p Hp. unfold beInterested. by rewrite Hp.
Qed.

Lemma interested_at_most_once_witness :
  interested_sent (peer Examples.session.1) = 1%nat /\
  beInterested None (peer Examples.session.1)
  = (peer Examples.session.1, unchokeC (peer Examples.session.1), None).
Proof.
  split.
  - pose proof (proj1 interested_at_most_once Examples.small
                  [BeInterested None; Iterate; BeInterested None;
                   DownloadPiece (Examples.served Examples.content) Examples.small_piece]
                  [frame msgUnchoke []]) as H.
    change (interested_sent (peer Examples.session.1) <= 1)%nat in H.
    assert (1 <= interested_sent (peer Examples.session.1))%nat by (clear; vm_compute; lia).
    lia.
  - apply (proj2 interested_at_most_once). vm_compute. reflexivity.
Defined.

(** ** The queue of peer addresses *)

Module SupervisorFacts.
Import Supervisor.

Section Queue.

Context {Peer : Type}.
Implicit Types (peers : chan Peer) (pa : Peer).

Lemma enqueue_free pa peers :
  (length (buf peers) < cap peers)%nat ->
  enqueue pa peers = Some {| buf := buf peers ++ [pa]; cap := cap peers |}.
Proof.
  intros H. unfold enqueue. by destruct (Nat.ltb_spec (length (buf peers)) (cap peers)); [|lia].
Qed.

Lemma enqueue_full pa peers :
  (0 < cap peers)%nat -> length (buf peers) = cap peers ->
  exists oldest waiting,
    buf peers = oldest :: waiting /\
    enqueue pa peers = Some {| buf := waiting ++ [pa]; cap := cap peers |}.
Proof.
  intros Hc H. unfold enqueue.
  destruct (Nat.ltb_spec (length (buf peers)) (cap peers)); [lia|].
  destruct (buf peers) as [|oldest waiting]; [simpl in H; lia|].
  by exists oldest, waiting.
Qed.

Lemma bounded_act a peers :
  bounded peers -> bounded (act a peers) /\ cap (act a peers) = cap peers.
Proof.
  unfold bounded. intros H. destruct a as [pa|]; cbn [act].
  - unfold enqueue.
    destruct (Nat.ltb_spec (length (buf peers)) (cap peers)); cbn.
    + rewrite length_app. simpl. lia.
    + destruct (buf peers) as [|oldest waiting] eqn:E; cbn; [by rewrite E|].
      rewrite length_app. simpl in *. lia.
  - unfold receive. destruct (buf peers) as [|p waiting] eqn:E; cbn; [by rewrite E|].
    simpl in H. lia.
Qed.

Lemma bounded_peers_after (acts : list (action Peer)) :
  bounded (peers_after acts) /\ cap (peers_after acts) = NumWant.
Proof.
  unfold peers_after.
  assert (H : forall peers, bounded peers ->
            bounded (fold_left (fun peers a => act a peers) acts peers) /\
            cap (fold_left (fun peers a => act a peers) acts peers) = cap peers).
  { induction acts as [|a acts IH]; intros peers Hb; [done|]. simpl.
    destruct (bounded_act a peers Hb) as [Hb' Hc'].
    destruct (IH _ Hb') as [? ?]. split; [done|congruence]. }
  apply (H (make NumWant)). unfold bounded. simpl. lia.
Qed.

End Queue.

End SupervisorFacts.

(** The queue when the connecter takes nothing between the statements of
    the default case, after whatever the supervisor has queued and the
    connecter has taken before: a new address is appended when fewer than
    [NumWant] addresses wait; when [NumWant] wait the oldest one is removed
    and the new one appended; either way, at most [NumWant] addresses wait
    afterwards. *)
Lemma enqueue_undisturbed {Peer : Type} (acts : list (Supervisor.action Peer))
    (pa : Peer) :
  let peers := Supervisor.peers_after acts in
  (length (Supervisor.buf peers) <= Supervisor.NumWant)%nat /\
  ((length (Supervisor.buf peers) < Supervisor.NumWant)%nat ->
   Supervisor.enqueue pa peers
   = Some {| Supervisor.buf := Supervisor.buf peers ++ [pa];
             Supervisor.cap := Supervisor.NumWant |}) /\
  (length (Supervisor.buf peers) = Supervisor.NumWant ->
   exists oldest waiting,
     Supervisor.buf peers = oldest :: waiting /\
     Supervisor.enqueue pa peers
     = Some {| Supervisor.buf := waiting ++ [pa];
               Supervisor.cap := Supervisor.NumWant |}) /\
  (exists peers',
     Supervisor.enqueue pa peers = Some peers' /\
     (length (Supervisor.buf peers') <= Supervisor.NumWant)%nat).
Proof.
  intros peers.
  destruct (SupervisorFacts.bounded_peers_after acts) as [Hb Hc].
  fold peers in Hb, Hc. unfold Supervisor.bounded in Hb. rewrite Hc in Hb.
  assert (Hfree : (length (Supervisor.buf peers) < Supervisor.NumWant)%nat ->
                  Supervisor.enqueue pa peers
                  = Some {| Supervisor.buf := Supervisor.buf peers ++ [pa];
                            Supervisor.cap := Supervisor.NumWant |}).
  { intros H. rewrite <- Hc. apply SupervisorFacts.enqueue_free. by rewrite Hc. }
  assert (Hfull : length (Supervisor.buf peers) = Supervisor.NumWant ->
                  exists oldest waiting,
                    Supervisor.buf peers = oldest :: waiting /\
                    Supervisor.enqueue pa peers
                    = Some {| Supervisor.buf := waiting ++ [pa];
                              Supervisor.cap := Supervisor.NumWant |}).
  { intros H. rewrite <- Hc. apply SupervisorFacts.enqueue_full; rewrite Hc; [|done].
    unfold Supervisor.NumWant. lia. }
  split; [exact Hb|]. split; [exact Hfree|]. split; [exact Hfull|].
  destruct (decide (length (Supervisor.buf peers) = Supervisor.NumWant)) as [Heq|Hne].
  - destruct (Hfull Heq) as (oldest & waiting & Hbuf & ->).
    eexists. split; [reflexivity|]. cbn. rewrite length_app. rewrite Hbuf in Heq.
    simpl in *. lia.
  - rewrite Hfree by lia. eexists. split; [reflexivity|]. cbn. rewrite length_app.
    simpl. lia.
Qed.

Module InterleavingFacts.
Import Interleaving.

Section Steps.

Context {Peer : Type}.
Variable maxPeerPerTorrent : nat.
Implicit Types (st : state Peer) (pa : Peer) (a : actor).

Lemma steps_cons a (sched : list actor) st st' :
  step maxPeerPerTorrent a st = Some st' ->
  steps maxPeerPerTorrent (a :: sched) st = steps maxPeerPerTorrent sched st'.
Proof. intros H. cbn [steps]. by rewrite H. Qed.

(** No step puts more addresses into the channel than it holds. *)
Lemma step_bounded a st st' :
  step maxPeerPerTorrent a st = Some st' ->
  Supervisor.bounded (peers st) ->
  Supervisor.bounded (peers st') /\
  Supervisor.cap (peers st') = Supervisor.cap (peers st).
Proof.
  unfold Supervisor.bounded, step, has_room, Supervisor.receive. intros H Hb.
  destruct a.
  - destruct (sup st) as [[|pa todo]|pa todo|pa todo]; [done|..].
    + destruct (Nat.ltb_spec (length (Supervisor.buf (peers st)))
                  (Supervisor.cap (peers st))); inversion H; subst; cbn; [|done].
      rewrite length_app. simpl. lia.
    + destruct (Supervisor.buf (peers st)) as [|x waiting] eqn:E; inversion H; subst; cbn.
      simpl in Hb. lia.
    + destruct (Nat.ltb_spec (length (Supervisor.buf (peers st)))
                  (Supervisor.cap (peers st))); inversion H; subst; cbn.
      rewrite length_app. simpl. lia.
  - destruct (con st) as [|p].
    + destruct (Supervisor.buf (peers st)) as [|x waiting] eqn:E; inversion H; subst; cbn.
      simpl in Hb. lia.
    + destruct (running st <? maxPeerPerTorrent)%nat; inversion H; subst; cbn. done.
  - destruct (running st); inversion H; subst; cbn. done.
Qed.

(** With the connecter and the workers at rest, the steps of [Run] for one
    address do what [Supervisor.enqueue] does in one. *)
Lemma sup_alone st pa todo ch :
  Supervisor.bounded (peers st) ->
  sup st = Selecting (pa :: todo) ->
  Supervisor.enqueue pa (peers st) = Some ch ->
  exists k,
    steps maxPeerPerTorrent (repeat Sup k) st
    = Some {| peers := ch; sup := Selecting todo; con := con st;
              running := running st; dialled := dialled st |}.
Proof.
  unfold Supervisor.bounded, Supervisor.enqueue. intros Hb Hs He.
  destruct (Nat.ltb_spec (length (Supervisor.buf (peers st))) (Supervisor.cap (peers st)))
    as [Hlt|Hge].
  - exists 1%nat. cbn [repeat steps step]. rewrite Hs. unfold has_room.
    rewrite (proj2 (Nat.ltb_lt _ _) Hlt). by inversion He; subst.
  - destruct (Supervisor.buf (peers st)) as [|x waiting] eqn:E; [done|].
    exists 3%nat. cbn [repeat steps step]. rewrite Hs. unfold has_room. rewrite E.
    rewrite (proj2 (Nat.ltb_ge _ _)) by exact Hge.
    cbn [steps step sup peers]. unfold Supervisor.receive. rewrite E.
    cbn [steps step sup peers Supervisor.buf Supervisor.cap has_room].
    rewrite (proj2 (Nat.ltb_lt _ _)) by (simpl in Hb; lia).
    cbn [steps]. by inversion He; subst.
Qed.

(** The connecter can take every waiting address, when each worker returns
    before the next address is taken. *)
Lemma drain_empties (waiting : list Peer) : forall st,
  (0 < maxPeerPerTorrent)%nat ->
  Supervisor.buf (peers st) = waiting -> con st = Ranging -> running st = 0%nat ->
  steps maxPeerPerTorrent (drain (length waiting)) st
  = Some {| peers := {| Supervisor.buf := []; Supervisor.cap := Supervisor.cap (peers st) |};
            sup := sup st; con := Ranging; running := 0;
            dialled := dialled st ++ waiting |}.
Proof.
  intros st Hm. revert st.
  induction waiting as [|p waiting IH]; intros st Hbuf Hcon Hrun.
  - cbn [length drain steps]. rewrite app_nil_r.
    destruct st as [[b c] s k r d]. cbn in *. by subst.
  - cbn [length drain steps step]. rewrite Hcon. unfold Supervisor.receive. rewrite Hbuf.
    cbn [steps step con running]. rewrite Hrun.
    rewrite (proj2 (Nat.ltb_lt _ _) Hm). cbn [steps step running].
    rewrite IH by done. cbn [peers sup dialled Supervisor.cap]. by rewrite <- app_assoc.
Qed.

(** Once [Run] stands at [<-peers] with nothing in the channel, it stands
    there for good: it is the only one that sends on the channel. *)
Lemma receiving_stuck pa todo (sched : list actor) : forall st,
  Supervisor.buf (peers st) = [] -> sup st = Receiving pa todo ->
  Supervisor.buf (peers (moves maxPeerPerTorrent sched st)) = [] /\
  sup (moves maxPeerPerTorrent sched st) = Receiving pa todo /\
  step maxPeerPerTorrent Sup (moves maxPeerPerTorrent sched st) = None.
Proof.
  unfold moves. induction sched as [|a sched IH]; intros st Hb Hs.
  - cbn [fold_left]. split; [done|]. split; [done|].
    cbn [step]. rewrite Hs. unfold Supervisor.receive. by rewrite Hb.
  - cbn [fold_left]. apply IH.
    + destruct a; cbn [step].
      * rewrite Hs. unfold Supervisor.receive. by rewrite Hb.
      * destruct (con st); [unfold Supervisor.receive; by rewrite Hb|].
        by destruct (running st <? maxPeerPerTorrent)%nat.
      * by destruct (running st).
    + destruct a; cbn [step].
      * rewrite Hs. unfold Supervisor.receive. by rewrite Hb.
      * destruct (con st); [unfold Supervisor.receive; by rewrite Hb|].
        by destruct (running st <? maxPeerPerTorrent)%nat.
      * by destruct (running st).
Qed.

End Steps.

End InterleavingFacts.

(** C7: the peer-address channel holds [NumWant] addresses, 0 to 49, and
    address 50 is announced.  When the connecter takes nothing in between,
    [Run] removes the oldest address and appends the new one.  When the
    connecter takes one address between the [select] and [<-peers], 49
    addresses wait when [Run] comes to [<-peers]; it removes the next
    address although the channel has a free place, and 49 addresses wait
    afterwards.  When the connecter takes all
    50 in between, [Run] waits at [<-peers] with nothing in the channel and
    stays there whatever the connecter and the workers do: the new address
    is never appended. *)
Theorem enqueue_races_connecter (slots : nat) (sched : list Interleaving.actor) :
  let maxPeerPerTorrent := S slots in
  let st := Interleaving.announced (seq 0 50) [50%nat] in
  Interleaving.steps maxPeerPerTorrent
    [Interleaving.Sup; Interleaving.Sup; Interleaving.Sup] st
  = Some {| Interleaving.peers := {| Supervisor.buf := seq 1 50;
                                     Supervisor.cap := Supervisor.NumWant |};
            Interleaving.sup := Interleaving.Selecting [];
            Interleaving.con := Interleaving.Ranging;
            Interleaving.running := 0; Interleaving.dialled := [] |} /\
  Interleaving.steps maxPeerPerTorrent [Interleaving.Sup; Interleaving.Con] st
  = Some {| Interleaving.peers := {| Supervisor.buf := seq 1 49;
                                     Supervisor.cap := Supervisor.NumWant |};
            Interleaving.sup := Interleaving.Receiving 50%nat [];
            Interleaving.con := Interleaving.Limited 0%nat;
            Interleaving.running := 0; Interleaving.dialled := [] |} /\
  Interleaving.steps maxPeerPerTorrent
    [Interleaving.Sup; Interleaving.Con; Interleaving.Sup; Interleaving.Sup] st
  = Some {| Interleaving.peers := {| Supervisor.buf := seq 2 48 ++ [50%nat];
                                     Supervisor.cap := Supervisor.NumWant |};
            Interleaving.sup := Interleaving.Selecting [];
            Interleaving.con := Interleaving.Limited 0%nat;
            Interleaving.running := 0; Interleaving.dialled := [] |} /\
  exists stuck,
    Interleaving.steps maxPeerPerTorrent
      (Interleaving.Sup :: Interleaving.drain 50) st = Some stuck /\
    Interleaving.dialled stuck = seq 0 50 /\
    let later := Interleaving.moves maxPeerPerTorrent sched stuck in
    Supervisor.buf (Interleaving.peers later) = [] /\
    Interleaving.sup later = Interleaving.Receiving 50%nat [] /\
    Interleaving.step maxPeerPerTorrent Interleaving.Sup later = None.
Proof.
  intros maxPeerPerTorrent st. split; [reflexivity|]. split; [reflexivity|].
  split; [reflexivity|].
  pose (st1 := {| Interleaving.peers := Interleaving.peers st;
                  Interleaving.sup := Interleaving.Receiving 50%nat [];
                  Interleaving.con := Interleaving.Ranging;
                  Interleaving.running := 0; Interleaving.dialled := [] |}
             : Interleaving.state nat).
  pose proof (InterleavingFacts.drain_empties maxPeerPerTorrent (seq 0 50) st1
                ltac:(unfold maxPeerPerTorrent; lia) eq_refl eq_refl eq_refl) as Hd.
  exists {| Interleaving.peers := {| Supervisor.buf := []; Supervisor.cap := Supervisor.NumWant |};
            Interleaving.sup := Interleaving.Receiving 50%nat [];
            Interleaving.con := Interleaving.Ranging;
            Interleaving.running := 0; Interleaving.dialled := seq 0 50 |}.
  split.
  - rewrite (InterleavingFacts.steps_cons maxPeerPerTorrent Interleaving.Sup _ st st1 eq_refl).
    exact Hd.
  - split; [reflexivity|].
    by apply InterleavingFacts.receiving_stuck.
Qed.

(** ** [Downloaded] and [Left] *)

(** While the number of set bits times the piece length is below 2^32,
    [Downloaded] returns that product; then, for a torrent whose last piece
    is shorter than the piece length and whose pieces are all set in the
    bit field, [Downloaded] is more than the total length and [Left] is
    negative. *)
Lemma Downloaded_product t :
  0 <= Count (t_bitField t) * PieceLength t < 2 ^ 32 ->
  Downloaded t = Count (t_bitField t) * PieceLength t /\
  (forall pc,
     last (pieces t) = Some pc ->
     0 <= p_length pc < PieceLength t ->
     TotalLength t = (Z.of_nat (length (pieces t)) - 1) * PieceLength t + p_length pc ->
     Count (t_bitField t) = Z.of_nat (length (pieces t)) ->
     TotalLength t < Downloaded t /\ Left t < 0).
Proof.
  intros Hr.
  assert (HD : Downloaded t = Count (t_bitField t) * PieceLength t).
  { unfold Downloaded. rewrite wrap32_small by done. apply wrap_int64_small. lia. }
  split; [exact HD|].
  intros pc Hlast Hlen Htot Hcount.
  assert (Hn : 1 <= Z.of_nat (length (pieces t))).
  { destruct (pieces t); [discriminate|]. simpl length. lia. }
  rewrite Hcount in HD, Hr.
  assert (Hlt : TotalLength t < Downloaded t) by (rewrite HD, Htot; nia).
  split; [exact Hlt|].
  unfold Left. rewrite wrap_int64_small; [lia|].
  rewrite HD in *. nia.
Qed.

Lemma Downloaded_product_witness :
  Downloaded
    {| pieces := [Examples.small_piece];
       t_bitField := {| Bytes := [x80]; Len := 1 |};
       PieceLength := 16384; TotalLength := 4 |} = 16384 /\
  Left
    {| pieces := [Examples.small_piece];
       t_bitField := {| Bytes := [x80]; Len := 1 |};
       PieceLength := 16384; TotalLength := 4 |} < 0.
Proof.
  set (t := {| pieces := [Examples.small_piece];
               t_bitField := {| Bytes := [x80]; Len := 1 |};
               PieceLength := 16384; TotalLength := 4 |}).
  assert (Hr : 0 <= Count (t_bitField t) * PieceLength t < 2 ^ 32) by (vm_compute; split; congruence).
  destruct (Downloaded_product t Hr) as [HD HL].
  split; [rewrite HD; reflexivity|].
  apply (HL Examples.small_piece); vm_compute; try reflexivity; split; congruence.
Defined.

(** C10: a torrent of 4 GiB and one byte in pieces of 4 MiB with all 1025
    pieces set in the bit field, the last piece one byte long.  The product
    of the number of set bits and the piece length, 1025 * 2^22, passes
    2^32 and is cut to 32 bits before it is converted: [Downloaded] returns
    2^22, which is not the product and is less than the total length, and
    [Left] is positive. *)
Theorem Downloaded_wraps :
  length (pieces Examples.large) = 1025%nat /\
  p_length <$> last (pieces Examples.large) = Some 1 /\
  TotalLength Examples.large = 1024 * PieceLength Examples.large + 1 /\
  Count (t_bitField Examples.large) = 1025 /\
  Downloaded Examples.large = 4194304 /\
  Downloaded Examples.large <> Count (t_bitField Examples.large) * PieceLength Examples.large /\
  Downloaded Examples.large < TotalLength Examples.large /\
  0 < Left Examples.large.
Proof.
  repeat split; by vm_compute.
Qed.

(** ** [run] returns *)

Lemma ReadFull_length n c bs c' :
  ReadFull n c = Ok (bs, c') ->
  (length (conn_bytes c') + n = length (conn_bytes c))%nat.
Proof.
  unfold ReadFull. destruct (Nat.leb_spec n (length (conn_bytes c))) as [Hle|Hgt].
  - intros [= <- <-]. rewrite conn_bytes_drop, length_drop. lia.
  - by destruct (conn_bytes c).
Qed.

Lemma read_uint32_length c es v c' :
  read_uint32 c = (es, Ok (v, c')) ->
  (length (conn_bytes c') + 4 = length (conn_bytes c))%nat.
Proof.
  unfold read_uint32, pure_res. destruct (ReadFull 4 c) as [[bs c1]| |] eqn:E;
    io_simpl; intros H; inversion H; subst.
  by apply ReadFull_length in E.
Qed.

Lemma read_byte_length c es v c' :
  read_byte c = (es, Ok (v, c')) ->
  (length (conn_bytes c') + 1 = length (conn_bytes c))%nat.
Proof.
  unfold read_byte, pure_res. destruct (ReadFull 1 c) as [[bs c1]| |] eqn:E;
    io_simpl; intros H; inversion H; subst.
  by apply ReadFull_length in E.
Qed.

Lemma Read_seg_length n c got c' :
  Read_seg n c = Ok (got, c') ->
  (length (conn_bytes c') <= length (conn_bytes c))%nat.
Proof.
  unfold conn_bytes. revert got c'. induction c as [|seg rest IH]; intros got c'; [done|].
  destruct seg as [|b seg].
  - simpl. apply IH.
  - rewrite Read_seg_cons by done. intros [= <- <-].
    destruct (n <? S (length seg))%nat.
    + rewrite !concat_cons, !length_app, length_drop. lia.
    + rewrite concat_cons, length_app. lia.
Qed.

Lemma conn_Read_length n c got c' :
  conn_Read n c = Ok (got, c') ->
  (length (conn_bytes c') <= length (conn_bytes c))%nat.
Proof.
  destruct n; [by intros [= <- <-]|]. apply Read_seg_length.
Qed.

Lemma limit_Read_length n c got c' :
  limit_Read n c = Ok (got, c') ->
  (length (conn_bytes c') <= length (conn_bytes c))%nat.
Proof.
  destruct n; [done|]. apply Read_seg_length.
Qed.

(** The [switch] reads on, it never puts bytes back. *)
Lemma dispatch_length t s ty l c es s' c' :
  dispatch t s ty l c = (es, Ok (s', c')) ->
  (length (conn_bytes c') <= length (conn_bytes c))%nat.
Proof.
  intros D. unfold dispatch in D.
  repeat match type of D with
         | (if ?b then _ else _) = _ => destruct b
         end;
    try (io_simpl_in D; inversion D; subst; done).
  - unfold on_have in D.
    destruct (read_uint32 c) as [? [[i c4]| |]] eqn:R; io_simpl_in D; try discriminate.
    apply read_uint32_length in R.
    destruct (_ <=? i); io_simpl_in D; [discriminate|].
    unfold index in D. destruct (pieces t !! _); io_simpl_in D; [|discriminate].
    inversion D; subst. lia.
  - unfold on_bitfield in D.
    destruct (negb (first s)); [discriminate|].
    destruct (negb _); [discriminate|].
    unfold read_bitfield in D.
    destruct (conn_Read _ c) as [[got c4]| |] eqn:R; io_simpl_in D; try discriminate.
    apply conn_Read_length in R.
    destruct (send_haves _ _ _) as [? [[]| |]]; io_simpl_in D; try discriminate.
    by inversion D; subst.
  - unfold on_piece in D.
    destruct (read_uint32 c) as [? [[i c4]| |]] eqn:R1; io_simpl_in D; try discriminate.
    apply read_uint32_length in R1.
    destruct (_ <=? i); io_simpl_in D; [discriminate|].
    unfold index in D. destruct (pieces t !! _) as [pc|]; io_simpl_in D; [|discriminate].
    destruct (read_uint32 c4) as [? [[bg c5]| |]] eqn:R2; io_simpl_in D; try discriminate.
    apply read_uint32_length in R2.
    destruct (negb _); [discriminate|].
    destruct (_ <=? _); [discriminate|].
    destruct (p_blocks pc !! _) as [blk|]; io_simpl_in D; [|discriminate].
    destruct (negb _); [discriminate|]. io_simpl_in D.
    destruct (limit_Read _ c5) as [[got c6]| |] eqn:R3; io_simpl_in D; try discriminate.
    apply limit_Read_length in R3.
    inversion D; subst. lia.
  - io_simpl_in D. inversion D; subst.
    rewrite conn_bytes_discard, length_drop. lia.
Qed.

(** An iteration that goes on has read the four bytes of a length prefix
    at least. *)
Lemma run_iter_length t s c es s' c' :
  run_iter t s c = (es, Ok (s', c')) ->
  (length (conn_bytes c') + 4 <= length (conn_bytes c))%nat.
Proof.
  unfold run_iter. intros H.
  destruct (read_uint32 c) as [es1 [[L c1]| |]] eqn:R1; io_simpl_in H; try discriminate.
  apply read_uint32_length in R1.
  destruct (L =? 0); [inversion H; subst; lia|].
  destruct (read_byte c1) as [es2 [[ty c2]| |]] eqn:R2; io_simpl_in H; try discriminate.
  apply read_byte_length in R2.
  destruct (dispatch t s ty (wrap32 (L - 1)) c2) as [es3 [[s3 c3]| |]] eqn:D;
    io_simpl_in H; try discriminate.
  apply dispatch_length in D. inversion H; subst. lia.
Qed.

(** The loop ends within as many iterations as the connection has bytes,
    and one more. *)
Lemma run_loop_returns t fuel : forall s c,
  (length (conn_bytes c) < fuel)%nat -> is_Some (run_loop fuel t s c).
Proof.
  induction fuel as [|fuel IH]; intros s c Hf; [lia|].
  simpl. destruct (run_iter t s c) as [es [[s' c']| |]] eqn:E; [|done|done].
  apply run_iter_length in E.
  destruct (IH s' c') as [[es' x] ->]; [lia|done].
Qed.

(** [run] returns on every connection that comes to an end. *)
Lemma run_returns t p wr c : is_Some (run t p wr c).
Proof.
  unfold run. destruct wr; [done|]. apply run_loop_returns. lia.
Qed.

(** * More properties *)

(** ** What is written can be read *)

(** X1: the frame [sendRequest] writes is 17 bytes long, and [binary.Read]
    reads from it the length prefix 13, the id of REQUEST and the index,
    the offset and the length that were given, whatever the segments it
    arrives in. *)
Theorem request_frame_read_back i b l c rest :
  0 <= i < 2 ^ 32 -> 0 <= b < 2 ^ 32 -> 0 <= l < 2 ^ 32 ->
  conn_bytes c = request_frame i b l ++ rest ->
  length (request_frame i b l) = 17%nat /\
  read_uint32 c = ([], Ok (13, conn_drop 4 c)) /\
  read_byte (conn_drop 4 c) = ([], Ok (msgRequest, conn_drop 5 c)) /\
  read_uint32 (conn_drop 5 c) = ([], Ok (i, conn_drop 9 c)) /\
  read_uint32 (conn_drop 9 c) = ([], Ok (b, conn_drop 13 c)) /\
  read_uint32 (conn_drop 13 c) = ([], Ok (l, conn_drop 17 c)) /\
  conn_bytes (conn_drop 17 c) = rest.
Proof.
  intros Hi Hb Hl Hc. unfold request_frame in Hc. rewrite <- !app_assoc in Hc.
  destruct (read_uint32_prefix c 13 _ ltac:(lia) Hc) as [R0 C0].
  cbn [app] in C0.
  destruct (read_byte_prefix _ _ _ C0) as [R1 C1].
  rewrite conn_drop_drop in R1, C1. cbn [Nat.add] in R1, C1.
  destruct (read_uint32_prefix _ i _ Hi C1) as [R2 C2].
  rewrite conn_drop_drop in R2, C2. cbn [Nat.add] in R2, C2.
  destruct (read_uint32_prefix _ b _ Hb C2) as [R3 C3].
  rewrite conn_drop_drop in R3, C3. cbn [Nat.add] in R3, C3.
  destruct (read_uint32_prefix _ l _ Hl C3) as [R4 C4].
  rewrite conn_drop_drop in R4, C4. cbn [Nat.add] in R4, C4.
  repeat split; try done.
Qed.

Lemma request_frame_read_back_witness :
  read_uint32 (conn_drop 9 [request_frame 3 32768 16384; [x00]])
  = ([], Ok (32768, conn_drop 13 [request_frame 3 32768 16384; [x00]])).
Proof.
  refine (proj1 (proj2 (proj2 (proj2 (proj2
            (request_frame_read_back 3 32768 16384
               [request_frame 3 32768 16384; [x00]] [x00] _ _ _ _)))))); by vm_compute.
Defined.

Lemma bitfield_frame_frame b : bitfield_frame b = frame msgBitfield (Bytes b).
Proof. reflexivity. Qed.

(** X2: what [sendBitField] writes in one write, [run] on the other side
    takes in as its first message when the write arrives as one segment
    and both transfers have the same number of pieces: the local bit field
    of the reader becomes the bit field that was sent, and one [peerHave]
    is sent for each of its set bits, in increasing order. *)
Theorem sendBitField_received t p b seg more :
  length (Bytes b) = length (Bytes (newBitField (Len (t_bitField t)))) ->
  1 + Z.of_nat (length (Bytes b)) < 2 ^ 32 ->
  Len (t_bitField t) <= Z.of_nat (length (pieces t)) ->
  let s := start t p in
  let c := (bitfield_frame b ++ seg) :: more in
  exists c',
    run_iter t s c =
      (map SendHave (filter (fun i => Test (with_Bytes (view s) (Bytes b)) i = true)
                       (upto (Len (t_bitField t)))),
       Ok (with_first false (with_view (with_Bytes (view s) (Bytes b)) s), c')) /\
    conn_bytes c' = seg ++ concat more.
Proof.
  intros Hlen HL Hn s c.
  apply (bitfield_whole t s c (Bytes b) seg more); try done.
  unfold c, conn_bytes. rewrite concat_cons, bitfield_frame_frame, <- app_assoc. reflexivity.
Qed.

Lemma sendBitField_received_witness :
  let b := {| Bytes := [x80; x01]; Len := 16 |} in
  let s := start Examples.sixteen newPeerConn in
  exists c',
    run_iter Examples.sixteen s [bitfield_frame b ++ keep_alive]
    = ([SendHave 0; SendHave 15],
       Ok (with_first false (with_view (with_Bytes (view s) [x80; x01]) s), c')) /\
    conn_bytes c' = keep_alive.
Proof.
  intros b s.
  destruct (sendBitField_received Examples.sixteen newPeerConn b keep_alive [])
    as (c' & E & Hc'); [reflexivity|by vm_compute|by vm_compute|].
  exists c'. split; [exact E|]. rewrite Hc'. apply app_nil_r.
Defined.

(** ** Bits *)

Lemma testbit_byte_of_Z z n :
  0 <= n < 8 -> Z.testbit (byteZ (byte_of_Z z)) n = Z.testbit z n.
Proof.
  intros Hn. rewrite byteZ_of_Z. change 256 with (2 ^ 8).
  apply Z.mod_pow2_bits_low. lia.
Qed.

Lemma testbit_set_byte x m n :
  0 <= m < 8 -> 0 <= n < 8 ->
  Z.testbit (byteZ (byte_of_Z (Z.lor (byteZ x) (Z.shiftl 1 m)))) n
  = Z.testbit (byteZ x) n || (m =? n).
Proof.
  intros Hm Hn. rewrite testbit_byte_of_Z by done.
  rewrite Z.lor_spec, Z.shiftl_1_l, Z.pow2_bits_eqb by lia. reflexivity.
Qed.

(** A bit that is set stays set when another is set. *)
Lemma Test_SetBit_mono b i j : Test b j = true -> Test (SetBit b i) j = true.
Proof.
  unfold Test, SetBit. intros H.
  destruct ((0 <=? i) && (i <? Len b)); [|exact H].
  cbn [Len Bytes].
  destruct ((0 <=? j) && (j <? Len b)) eqn:Hr; [|done].
  cbn [andb] in *.
  assert (Hj : 0 <= j) by (apply andb_true_iff in Hr; lia).
  destruct (decide (Z.to_nat (i / 8) = Z.to_nat (j / 8))) as [->|Hne].
  - rewrite list_lookup_alter.
    destruct (Bytes b !! Z.to_nat (j / 8)) as [x|]; [|done]. cbn [fmap option_fmap option_map].
    rewrite decide_True by done.
    rewrite testbit_set_byte, H; [done| |];
      pose proof (Z.mod_pos_bound i 8); pose proof (Z.mod_pos_bound j 8); lia.
  - by rewrite list_lookup_alter_ne.
Qed.

(** The bit that is set tests true, in a bit field that has its bytes. *)
Lemma Test_SetBit_same b i :
  wf_view b -> 0 <= i < Len b -> Test (SetBit b i) i = true.
Proof.
  unfold wf_view, Test, SetBit. intros [H0 Hlen] Hi.
  destruct (Z.leb_spec 0 i); [|lia]. destruct (Z.ltb_spec i (Len b)); [|lia].
  cbn [andb Len Bytes]. destruct (Z.leb_spec 0 i); [|lia].
  destruct (Z.ltb_spec i (Len b)); [|lia]. cbn [andb].
  rewrite list_lookup_alter.
  destruct (lookup_lt_is_Some_2 (Bytes b) (Z.to_nat (i / 8))) as [x ->].
  { assert (i / 8 < (Len b + 7) / 8) by (Z.to_euclidean_division_equations; lia).
    assert (0 <= i / 8) by (apply Z.div_pos; lia). lia. }
  cbn [fmap option_fmap option_map]. rewrite decide_True by done.
  pose proof (Z.mod_pos_bound i 8).
  rewrite testbit_set_byte by lia. rewrite Z.eqb_refl. apply orb_true_r.
Qed.

Lemma wf_view_new n : 0 <= n -> wf_view (newBitField n).
Proof. intros Hn. split; [done|]. by apply newBitField_bytes. Qed.

(** ** HAVE messages *)

(** X3: a HAVE message.  An index at or above the number of pieces ends
    the connection with "unexpected piece index" and nothing is sent to
    the transfer.  An index below it sends one [peerHave] for that piece,
    sets its bit in the local bit field and changes nothing else but
    [first]; the loop goes on right after the index, and the bit tests
    true when the local bit field reaches that far. *)
Theorem have_message t s c i rest :
  0 <= i < 2 ^ 32 ->
  conn_bytes c = frame msgHave (put32 i) ++ rest ->
  (len32 (pieces t) <= i ->
   run_iter t s c = ([], Fail (ErrNew "unexpected piece index"))) /\
  (i < len32 (pieces t) ->
   run_iter t s c
   = ([SendHave i], Ok (with_first false (with_view (SetBit (view s) i) s), conn_drop 9 c)) /\
   conn_bytes (conn_drop 9 c) = rest /\
   (wf_view (view s) -> i < Len (view s) -> Test (SetBit (view s) i) i = true)).
Proof.
  intros Hi Hc. unfold frame in Hc. rewrite <- app_assoc in Hc. cbn [app] in Hc.
  change (1 + Z.of_nat (length (put32 i))) with 5 in Hc.
  destruct (run_iter_header t s c 5 _ _ ltac:(lia) Hc) as [E C5].
  change (byteZ (byte_of_Z msgHave)) with 4 in E.
  change (dispatch t s 4 (5 - 1) (conn_drop 5 c)) with (on_have t s (conn_drop 5 c)) in E.
  destruct (read_uint32_prefix _ i rest Hi C5) as [R C9].
  rewrite conn_drop_drop in R, C9. cbn [Nat.add] in R, C9.
  unfold on_have in E. rewrite R, bind_pure in E.
  split.
  - intros Hge. rewrite E. destruct (Z.leb_spec (len32 (pieces t)) i); [reflexivity|lia].
  - intros Hlt. split; [|split; [exact C9|]].
    + rewrite E. destruct (Z.leb_spec (len32 (pieces t)) i); [lia|].
      unfold index.
      destruct (lookup_lt_is_Some_2 (pieces t) (Z.to_nat i)) as [pc ->].
      { pose proof (len32_le (pieces t)). lia. }
      reflexivity.
    + intros Hwf Hlen. apply Test_SetBit_same; [done|lia].
Qed.

Lemma have_message_witness :
  let s := start Examples.sixteen newPeerConn in
  run_iter Examples.sixteen s [frame msgHave (put32 16)]
  = ([], Fail (ErrNew "unexpected piece index")) /\
  run_iter Examples.sixteen s [frame msgHave (put32 15)]
  = ([SendHave 15],
     Ok (with_first false (with_view (SetBit (view s) 15) s),
         conn_drop 9 [frame msgHave (put32 15)])).
Proof.
  intros s. split.
  - refine (proj1 (have_message Examples.sixteen s [frame msgHave (put32 16)] 16 [] _ _) _);
      by vm_compute.
  - refine (proj1 (proj2 (have_message Examples.sixteen s [frame msgHave (put32 15)] 15 []
                            _ _) _)); by vm_compute.
Defined.

(** ** What an iteration can do *)

Lemma closes_app es es' : closes (es ++ es') = closes es ++ closes es'.
Proof. unfold closes. apply omap_app. Qed.

Lemma send_haves_closes t b ps es r : send_haves t b ps = (es, r) -> closes es = [].
Proof.
  revert es r. induction ps as [|i ps IH]; intros es r H; simpl in H.
  - by inversion H.
  - destruct (Test b i); [|by eapply IH].
    unfold index in H. destruct (pieces t !! Z.to_nat i); [|by inversion H].
    rewrite bind_mret in H. io_simpl_in H.
    destruct (send_haves t b ps) as [es1 r1] eqn:E.
    specialize (IH _ _ eq_refl).
    destruct r1; inversion H; subst; exact IH.
Qed.

(** An iteration that goes on was a keep-alive, which changes nothing, or
    it has cleared [first] and done one of these: set or cleared
    [peerChoking] (closing the unchoke channel and taking a new one when it
    cleared it), set or cleared [peerInterested], set one bit of the local
    bit field and sent [peerHave], read a first BITFIELD, sent one block,
    or nothing. *)
Lemma run_iter_cases t s c es s' c' :
  run_iter t s c = (es, Ok (s', c')) ->
  (s' = s /\ es = []) \/
  first s' = false /\
  ((peer s' = set_peerChoking true (peer s) /\ view s' = view s /\ es = []) \/
   (peer s' = set_unchokeC (S (unchokeC (peer s))) (set_peerChoking false (peer s)) /\
    view s' = view s /\ es = [CloseChan (unchokeC (peer s))]) \/
   (exists v, peer s' = set_peerInterested v (peer s) /\ view s' = view s /\ es = []) \/
   (exists i, peer s' = peer s /\ view s' = SetBit (view s) i /\ es = [SendHave i]) \/
   (first s = true /\ peer s' = peer s /\ closes es = [] /\
    exists got, view s' = with_Bytes (view s) (fill (Bytes (view s)) got)) \/
   (peer s' = peer s /\ view s' = view s /\
    exists n i b data, es = [Alloc n; SendBlock i b data]) \/
   (peer s' = peer s /\ view s' = view s /\ es = [])).
Proof.
  unfold run_iter. intros H.
  destruct (read_uint32 c) as [es1 [[L c1]| |]] eqn:R1; io_simpl_in H; try discriminate.
  assert (es1 = []) as -> by (unfold read_uint32, pure_res in R1;
    destruct (ReadFull 4 c) as [[? ?]| |]; io_simpl_in R1; by inversion R1).
  destruct (L =? 0); [inversion H; subst; by left|].
  destruct (read_byte c1) as [es2 [[ty c2]| |]] eqn:R2; io_simpl_in H; try discriminate.
  assert (es2 = []) as -> by (unfold read_byte, pure_res in R2;
    destruct (ReadFull 1 c1) as [[? ?]| |]; io_simpl_in R2; by inversion R2).
  destruct (dispatch t s ty (wrap32 (L - 1)) c2) as [es3 [[s3 c3]| |]] eqn:D;
    io_simpl_in H; try discriminate.
  inversion H; subst. clear H. right. split; [done|]. cbn [peer view with_first].
  rewrite app_nil_r.
  unfold dispatch in D.
  repeat match type of D with
         | (if ?b then _ else _) = _ => destruct b
         end.
  - io_simpl_in D. inversion D; subst. by left.
  - io_simpl_in D. inversion D; subst. right. by left.
  - io_simpl_in D. inversion D; subst. do 2 right. left. by exists true.
  - io_simpl_in D. inversion D; subst. do 2 right. left. by exists false.
  - unfold on_have in D.
    destruct (read_uint32 c2) as [es4 [[i c4]| |]] eqn:R; io_simpl_in D; try discriminate.
    assert (es4 = []) as -> by (unfold read_uint32, pure_res in R;
      destruct (ReadFull 4 c2) as [[? ?]| |]; io_simpl_in R; by inversion R).
    destruct (_ <=? i); io_simpl_in D; [discriminate|].
    unfold index in D. destruct (pieces t !! _); io_simpl_in D; [|discriminate].
    inversion D; subst. do 3 right. left. by exists i.
  - unfold on_bitfield in D.
    destruct (first s) eqn:Hf; [|discriminate]. cbn [negb] in D.
    destruct (negb _); [discriminate|].
    unfold read_bitfield in D.
    destruct (conn_Read _ c2) as [[got c4]| |]; io_simpl_in D; try discriminate.
    destruct (send_haves _ _ _) as [es5 [[]| |]] eqn:SH; io_simpl_in D; try discriminate.
    inversion D; subst. do 4 right. left.
    rewrite app_nil_r. apply send_haves_closes in SH.
    split; [done|]. split; [done|]. split; [done|]. by exists got.
  - io_simpl_in D. inversion D; subst. do 6 right. done.
  - unfold on_piece in D.
    destruct (read_uint32 c2) as [es4 [[i c4]| |]] eqn:R; io_simpl_in D; try discriminate.
    assert (es4 = []) as -> by (unfold read_uint32, pure_res in R;
      destruct (ReadFull 4 c2) as [[? ?]| |]; io_simpl_in R; by inversion R).
    destruct (_ <=? i); io_simpl_in D; [discriminate|].
    unfold index in D. destruct (pieces t !! _) as [pc|]; io_simpl_in D; [|discriminate].
    destruct (read_uint32 c4) as [es5 [[bg c5]| |]] eqn:R'; io_simpl_in D; try discriminate.
    assert (es5 = []) as -> by (unfold read_uint32, pure_res in R';
      destruct (ReadFull 4 c4) as [[? ?]| |]; io_simpl_in R'; by inversion R').
    destruct (negb _); [discriminate|].
    destruct (_ <=? _); [discriminate|].
    destruct (p_blocks pc !! _) as [blk|]; io_simpl_in D; [|discriminate].
    destruct (negb _); [discriminate|]. io_simpl_in D.
    destruct (limit_Read _ c5) as [[got c6]| |]; io_simpl_in D; try discriminate.
    inversion D; subst. do 5 right. left. split; [done|]. split; [done|]. by do 4 eexists.
  - io_simpl_in D. inversion D; subst. do 6 right. done.
  - io_simpl_in D. inversion D; subst. do 6 right. done.
  - io_simpl_in D. inversion D; subst. do 6 right. done.
Qed.

(** An iteration that ends the loop has closed no channel. *)
Lemma run_iter_stop_closes t s c es r :
  run_iter t s c = (es, r) -> (forall x, r <> Ok x) -> closes es = [].
Proof.
  unfold run_iter. intros H Hr.
  destruct (read_uint32 c) as [es1 [[L c1]| |]] eqn:R1; io_simpl_in H.
  2,3: unfold read_uint32, pure_res in R1;
       destruct (ReadFull 4 c) as [[? ?]| |]; io_simpl_in R1; inversion R1; subst;
       by inversion H.
  assert (es1 = []) as -> by (unfold read_uint32, pure_res in R1;
    destruct (ReadFull 4 c) as [[? ?]| |]; io_simpl_in R1; by inversion R1).
  destruct (L =? 0); [inversion H; subst; by destruct (Hr (s, c1))|].
  destruct (read_byte c1) as [es2 [[ty c2]| |]] eqn:R2; io_simpl_in H.
  2,3: unfold read_byte, pure_res in R2;
       destruct (ReadFull 1 c1) as [[? ?]| |]; io_simpl_in R2; inversion R2; subst;
       by inversion H.
  assert (es2 = []) as -> by (unfold read_byte, pure_res in R2;
    destruct (ReadFull 1 c1) as [[? ?]| |]; io_simpl_in R2; by inversion R2).
  destruct (dispatch t s ty (wrap32 (L - 1)) c2) as [es3 [[s3 c3]| |]] eqn:D;
    io_simpl_in H; inversion H; subst; clear H.
  { by destruct (Hr (with_first false s3, c3)). }
  all: unfold dispatch in D;
    repeat match type of D with
           | (if ?b then _ else _) = _ => destruct b
           end;
    try (io_simpl_in D; by inversion D).
  all: try (unfold on_have in D;
    destruct (read_uint32 c2) as [es4 [[i c4]| |]] eqn:R; io_simpl_in D;
    unfold read_uint32, pure_res in R;
    destruct (ReadFull 4 c2) as [[? ?]| |]; io_simpl_in R; inversion R; subst;
    try (by inversion D);
    destruct (_ <=? _); io_simpl_in D; [by inversion D|];
    unfold index in D; destruct (pieces t !! _); io_simpl_in D; by inversion D).
  all: try (unfold on_bitfield in D;
    destruct (negb (first s)); [by inversion D|];
    destruct (negb _); [by inversion D|];
    unfold read_bitfield in D;
    destruct (conn_Read _ c2) as [[got c4]| |]; io_simpl_in D; try (by inversion D);
    destruct (send_haves _ _ _) as [es5 r5] eqn:SH; apply send_haves_closes in SH;
    destruct r5 as [[]| |]; io_simpl_in D; inversion D; subst;
    rewrite ?app_nil_r; exact SH).
  all: unfold on_piece in D;
    destruct (read_uint32 c2) as [es4 [[i c4]| |]] eqn:R; io_simpl_in D;
    unfold read_uint32, pure_res in R;
    destruct (ReadFull 4 c2) as [[? ?]| |]; io_simpl_in R; inversion R; subst;
    try (by inversion D);
    (destruct (_ <=? _); io_simpl_in D; [by inversion D|]);
    unfold index in D; (destruct (pieces t !! _) as [pc|]; io_simpl_in D; [|by inversion D]);
    destruct (read_uint32 c4) as [es5 [[bg c5]| |]] eqn:R'; io_simpl_in D;
    unfold read_uint32, pure_res in R';
    destruct (ReadFull 4 c4) as [[? ?]| |]; io_simpl_in R'; inversion R'; subst;
    try (by inversion D);
    (destruct (negb _); [by inversion D|]);
    (destruct (_ <=? _); [by inversion D|]);
    (destruct (p_blocks pc !! _) as [blk|]; io_simpl_in D; [|by inversion D]);
    (destruct (negb _); [by inversion D|]); io_simpl_in D;
    destruct (limit_Read _ c5) as [[got c6]| |]; io_simpl_in D; by inversion D.
Qed.

(** ** Unchoke channels *)

Lemma run_loop_closes t fuel : forall s c es x,
  run_loop fuel t s c = Some (es, x) ->
  closes es = seq (unchokeC (peer s)) (length (closes es)) /\
  forall e s', x = Returned e s' ->
    unchokeC (peer s') = (unchokeC (peer s) + length (closes es))%nat.
Proof.
  induction fuel as [|fuel IH]; intros s c es x H; [discriminate|].
  simpl in H. destruct (run_iter t s c) as [es1 [[s1 c1]| |]] eqn:E.
  - destruct (run_loop fuel t s1 c1) as [[es2 x2]|] eqn:E2; [|discriminate].
    inversion H; subst. clear H.
    destruct (IH _ _ _ _ E2) as [Hseq Hret].
    rewrite closes_app, length_app.
    assert (Hc : (closes es1 = [] /\ unchokeC (peer s1) = unchokeC (peer s)) \/
                 (closes es1 = [unchokeC (peer s)] /\
                  unchokeC (peer s1) = S (unchokeC (peer s)))).
    { destruct (run_iter_cases _ _ _ _ _ _ E) as [[-> ->]|[_ Hk]]; [by left|].
      destruct Hk as [(-> & _ & ->)|[(-> & _ & ->)|[(v & -> & _ & ->)|[(i & -> & _ & ->)|
        [(_ & -> & -> & _)|[(-> & _ & n & i & b & data & ->)|(-> & _ & ->)]]]]]];
        try (by left). by right. }
    destruct Hc as [[-> Hu]|[-> Hu]]; rewrite Hu in Hseq.
    + split; [exact Hseq|]. intros e s' ->. rewrite (Hret e s' eq_refl), Hu. done.
    + cbn [app length]. split.
      * change (1 + length (closes es2))%nat with (S (length (closes es2))).
        cbn [seq]. f_equal. exact Hseq.
      * intros e s' ->. rewrite (Hret e s' eq_refl). cbn. lia.
  - inversion H; subst. rewrite (run_iter_stop_closes _ _ _ _ _ E) by done.
    split; [done|]. intros e' s' [= <- <-]. cbn. lia.
  - inversion H; subst. rewrite (run_iter_stop_closes _ _ _ _ _ E) by done.
    split; [done|]. intros e' s' [=].
Qed.

(** X4: the unchoke channels [run] closes are the channel the peer starts
    with and the ones made after it, each once and in the order they were
    made, and when [run] returns the current channel is one that has not
    been closed: no channel is closed twice, and a channel got from
    [beInterested] is closed by the next UNCHOKE only. *)
Theorem unchoke_channels_closed_once t p wr c es e s' :
  run t p wr c = Some (es, Returned e s') ->
  closes es = seq (unchokeC p) (length (closes es)) /\
  unchokeC (peer s') = (unchokeC p + length (closes es))%nat /\
  NoDup (closes es) /\
  unchokeC (peer s') ∉ closes es.
Proof.
  unfold run. intros H.
  assert (Hs : closes es = seq (unchokeC p) (length (closes es)) /\
               unchokeC (peer s') = (unchokeC p + length (closes es))%nat).
  { destruct wr as [e0|].
    - inversion H; subst. done.
    - destruct (run_loop_closes _ _ _ _ _ _ H) as [Hseq Hret].
      split; [exact Hseq|]. exact (Hret e s' eq_refl). }
  destruct Hs as [Hseq Hu]. split; [exact Hseq|]. split; [exact Hu|].
  rewrite Hseq. split; [apply NoDup_ListNoDup, seq_NoDup|].
  rewrite list_elem_of_In, in_seq, ?length_seq. lia.
Qed.

Lemma unchoke_channels_closed_once_witness :
  exists es e s',
    run Examples.small newPeerConn None
      [frame msgUnchoke [] ++ frame msgChoke [] ++ frame msgUnchoke []]
    = Some (es, Returned e s') /\
    closes es = [0; 1]%nat /\ unchokeC (peer s') = 2%nat.
Proof.
  destruct (run Examples.small newPeerConn None
              [frame msgUnchoke [] ++ frame msgChoke [] ++ frame msgUnchoke []])
    as [[es [e s'|]]|] eqn:E; try (vm_compute in E; discriminate E).
  exists es, e, s'. split; [reflexivity|].
  destruct (unchoke_channels_closed_once _ _ _ _ _ _ _ E) as (Hseq & Hu & _ & _).
  assert (Hn : length (closes es) = 2%nat) by (vm_compute in E; by inversion E).
  rewrite Hn in Hseq, Hu. split; [exact Hseq|exact Hu].
Defined.

(** ** What the remote has *)

(** X16: once the first message is past, the loop never clears a bit of
    its local bit field: a piece the remote has advertised stays
    advertised for as long as the loop goes on. *)
Theorem advertised_stays t n : forall s c es s' c',
  run_iters n t s c = (es, Ok (s', c')) ->
  first s = false ->
  first s' = false /\ forall j, Test (view s) j = true -> Test (view s') j = true.
Proof.
  induction n as [|n IH]; intros s c es s' c' H Hf.
  - simpl in H. inversion H; subst. done.
  - simpl in H.
    destruct (run_iter t s c) as [es1 [[s1 c1]| |]] eqn:E; io_simpl_in H; try discriminate.
    destruct (run_iters n t s1 c1) as [es2 [[s2 c2]| |]] eqn:E2; try discriminate.
    inversion H; subst. clear H.
    assert (Hstep : first s1 = false /\
                    forall j, Test (view s) j = true -> Test (view s1) j = true).
    { destruct (run_iter_cases _ _ _ _ _ _ E) as [[-> ->]|[Hf1 Hk]]; [done|].
      split; [exact Hf1|].
      destruct Hk as [(_ & -> & _)|[(_ & -> & _)|[(v & _ & -> & _)|[(i & _ & -> & _)|
        [(Hft & _)|[(_ & -> & _)|(_ & -> & _)]]]]]]; try done.
      - intros j. apply Test_SetBit_mono.
      - congruence. }
    destruct Hstep as [Hf1 Hm1]. destruct (IH _ _ _ _ _ E2 Hf1) as [Hf2 Hm2].
    split; [exact Hf2|]. intros j Hj. by apply Hm2, Hm1.
Qed.

Lemma advertised_stays_witness :
  let s0 := start Examples.sixteen newPeerConn in
  let s := with_first false (with_view (SetBit (view s0) 3) s0) in
  exists es s' c',
    run_iters 2 Examples.sixteen s [frame msgHave (put32 9) ++ frame msgChoke []]
    = (es, Ok (s', c')) /\
    Test (view s') 3 = true.
Proof.
  intros s0 s.
  destruct (run_iters 2 Examples.sixteen s [frame msgHave (put32 9) ++ frame msgChoke []])
    as [es [[s' c']| |]] eqn:E; try (vm_compute in E; discriminate E).
  exists es, s', c'. split; [reflexivity|].
  apply (proj2 (advertised_stays Examples.sixteen 2 s _ es s' c' E eq_refl)).
  by vm_compute.
Defined.

(** ** Unknown messages *)

(** X5: on a connection on which no read deadline runs out, a message
    with an id above 9 is skipped whole.  The loop variables stay as they
    are but for [first], nothing is sent, and the loop goes on at the byte
    after the declared body, or at the end of the connection when it ends
    within the declared body. *)
Theorem unknown_message_skipped t s c ty L rest :
  msgPort < ty < 256 -> 1 <= L < 2 ^ 32 ->
  conn_bytes c = put32 L ++ byte_of_Z ty :: rest ->
  exists c',
    run_iter t s c = ([], Ok (with_first false s, c')) /\
    conn_bytes c' = drop (Z.to_nat (L - 1)) rest /\
    (forall body rest', rest = body ++ rest' -> Z.of_nat (length body) = L - 1 ->
                        conn_bytes c' = rest') /\
    (Z.of_nat (length rest) <= L - 1 -> conn_bytes c' = []).
Proof.
  intros Hty HL Hc.
  destruct (run_iter_unknown t s c L (byte_of_Z ty) rest HL) as (c' & E & Hc'); [|done|].
  { unfold msgPort in *. rewrite byteZ_of_Z, Z.mod_small; lia. }
  exists c'. split; [exact E|]. split; [exact Hc'|]. rewrite Hc'. split.
  - intros body rest' -> Hlen. rewrite drop_app_length'; [done|lia].
  - intros Hle. apply drop_ge. lia.
Qed.

Lemma unknown_message_skipped_witness :
  let s := start Examples.small newPeerConn in
  exists c',
    run_iter Examples.small s [frame 20 [x01; x02; x03] ++ keep_alive]
    = ([], Ok (with_first false s, c')) /\
    conn_bytes c' = keep_alive.
Proof.
  intros s.
  destruct (unknown_message_skipped Examples.small s
              [frame 20 [x01; x02; x03] ++ keep_alive] 20 4 ([x01; x02; x03] ++ keep_alive))
    as (c' & E & _ & Hb & _); [by vm_compute|lia|by vm_compute|].
  exists c'. split; [exact E|]. by apply (Hb [x01; x02; x03]).
Defined.

(** ** Progress *)

(** X6: an iteration of the loop that goes on has read the four bytes of
    a length prefix at least, so [n] iterations that all go on have read
    4n bytes or more: of a connection that delivers [N] bytes in all, the
    loop makes at most N/4 iterations that go on. *)
Theorem run_iterations_bounded t n : forall s c es s' c',
  run_iters n t s c = (es, Ok (s', c')) ->
  (length (conn_bytes c') + 4 * n <= length (conn_bytes c))%nat /\
  (n <= length (conn_bytes c) / 4)%nat.
Proof.
  assert (Hsum : forall s c es s' c',
            run_iters n t s c = (es, Ok (s', c')) ->
            (length (conn_bytes c') + 4 * n <= length (conn_bytes c))%nat).
  { induction n as [|n IH]; intros s c es s' c' H.
    - simpl in H. inversion H; subst. lia.
    - simpl in H.
      destruct (run_iter t s c) as [es1 [[s1 c1]| |]] eqn:E; io_simpl_in H; try discriminate.
      destruct (run_iters n t s1 c1) as [es2 [[s2 c2]| |]] eqn:E2; try discriminate.
      inversion H; subst. clear H.
      apply run_iter_length in E. apply IH in E2. lia. }
  intros s c es s' c' H. apply Hsum in H. split; [exact H|].
  apply Nat.div_le_lower_bound; lia.
Qed.

Lemma run_iterations_bounded_witness :
  let s := start Examples.small newPeerConn in
  exists es s' c',
    run_iters 2 Examples.small s [keep_alive; frame msgChoke []] = (es, Ok (s', c')) /\
    (length (conn_bytes c') + 8 <= 9)%nat.
Proof.
  intros s.
  destruct (run_iters 2 Examples.small s [keep_alive; frame msgChoke []])
    as [es [[s' c']| |]] eqn:E; try (vm_compute in E; discriminate E).
  exists es, s', c'. split; [reflexivity|].
  exact (proj1 (run_iterations_bounded Examples.small 2 s _ es s' c' E)).
Defined.

(** ** The block loop of [downloadPiece] *)

Lemma writes_snoc fs f p : writes (fs ++ [f]) p = write f (writes fs p).
Proof. unfold writes. by rewrite fold_left_app. Qed.

Lemma writes_cons f fs p : writes (f :: fs) p = writes fs (write f p).
Proof. reflexivity. Qed.

Lemma written_writes fs p : written (writes fs p) = written p ++ fs.
Proof.
  revert p. induction fs as [|f fs IH]; intros p; [by rewrite app_nil_r|].
  rewrite writes_cons, IH. cbn [written write]. by rewrite <- app_assoc.
Qed.

Lemma writes_fields fs p :
  unchokeC (writes fs p) = unchokeC p /\
  onceInterested (writes fs p) = onceInterested p /\
  amChoking (writes fs p) = amChoking p /\
  amInterested (writes fs p) = amInterested p /\
  peerChoking (writes fs p) = peerChoking p /\
  peerInterested (writes fs p) = peerInterested p /\
  closed (writes fs p) = closed p.
Proof.
  revert p. induction fs as [|f fs IH]; intros p; [done|].
  rewrite writes_cons. destruct (IH (write f p)) as (-> & -> & -> & -> & -> & -> & ->). done.
Qed.

Lemma copy_at_length off data buf buf' :
  copy_at off data buf = Ok buf' -> length buf' = length buf.
Proof.
  unfold copy_at. destruct (Nat.ltb_spec (length buf) (Z.to_nat off)); [done|].
  intros [= <-]. rewrite !length_app, !length_take, length_drop. lia.
Qed.

(** The loop writes one request per block, in order, up to the block at
    which it stops, and keeps the length of the piece buffer. *)
Lemma request_blocks_writes e idx bs : forall n st st' r,
  request_blocks e idx bs n st = (st', r) ->
  length (pieceData st') = length (pieceData st) /\
  exists k, (k <= length bs)%nat /\
    dl_peer st' = writes (request_frames idx (take k bs)) (dl_peer st) /\
    (r = Ok tt -> k = length bs).
Proof.
  induction bs as [|b bs IH]; intros n st st' r H; simpl in H.
  - inversion H; subst. split; [done|]. by exists 0%nat.
  - assert (Hstop : forall buf r0,
              length buf = length (pieceData st) -> r0 <> Ok tt ->
              ({| dl_peer := write (request_frame idx (wrap32 (b_index b * blockSize))
                                      (b_length b)) (dl_peer st);
                  dl_received := dl_received st; pieceData := buf |}, r0) = (st', r) ->
              length (pieceData st') = length (pieceData st) /\
              exists k, (k <= length (b :: bs))%nat /\
                dl_peer st' = writes (request_frames idx (take k (b :: bs))) (dl_peer st) /\
                (r = Ok tt -> k = length (b :: bs))).
    { intros buf r0 Hbuf Hr0 [= <- <-]. split; [done|]. exists 1%nat.
      split; [simpl; lia|]. split; [reflexivity|done]. }
    assert (Hgo : forall st1,
              dl_peer st1 = write (request_frame idx (wrap32 (b_index b * blockSize))
                                     (b_length b)) (dl_peer st) ->
              length (pieceData st1) = length (pieceData st) ->
              request_blocks e idx bs (S n) st1 = (st', r) ->
              length (pieceData st') = length (pieceData st) /\
              exists k, (k <= length (b :: bs))%nat /\
                dl_peer st' = writes (request_frames idx (take k (b :: bs))) (dl_peer st) /\
                (r = Ok tt -> k = length (b :: bs))).
    { intros st1 Hp Hl H1. destruct (IH _ _ _ _ H1) as (Hlen & k & Hk & Hw & Hr).
      split; [congruence|]. exists (S k). split; [simpl; lia|].
      split; [|intros Hok; simpl; by rewrite (Hr Hok)].
      cbn [take request_frames map]. rewrite writes_cons, <- Hp. exact Hw. }
    cbn [sendRequest] in H.
    destruct (request_wr (e n)) as [err|];
      [by refine (Hstop (pieceData st) (Fail err) eq_refl _ H)|].
    destruct (block_wait (e n)) as [data|]; [|by eapply Hgo; [..|exact H]].
    destruct (negb (len32 data =? b_length b));
      [by refine (Hstop (pieceData st) (Fail _) eq_refl _ H)|].
    destruct (copy_at _ data (pieceData st)) as [buf|err|] eqn:Hcp;
      [|by refine (Hstop (pieceData st) (Fail err) eq_refl _ H)
       |by refine (Hstop (pieceData st) Panic eq_refl _ H)].
    apply copy_at_length in Hcp.
    destruct (files_wr (e n)) as [err|]; [by refine (Hstop buf (Fail err) Hcp _ H)|].
    by eapply Hgo; [..|exact H].
Qed.

(** The loop writes the requests of the blocks it goes past and of the
    block that stops it, and returns [nil] when no block stops it. *)
Lemma request_blocks_stops e idx bs : forall n st st' r,
  request_blocks e idx bs n st = (st', r) ->
  dl_peer st'
  = writes (request_frames idx
              (take (S (passing e (length (pieceData st)) bs n)) bs)) (dl_peer st) /\
  (r = Ok tt <-> passing e (length (pieceData st)) bs n = length bs).
Proof.
  induction bs as [|b bs IH]; intros n st st' r H; simpl in H.
  - inversion H; subst. by split.
  - cbn [passing]. unfold block_passes. cbn [sendRequest] in H.
    destruct (request_wr (e n)) as [err|].
    { inversion H; subst. split; [reflexivity|]. split; [done|simpl; lia]. }
    destruct (block_wait (e n)) as [data|].
    2: { destruct (IH _ _ _ _ H) as [Hw Hr]. cbn [pieceData dl_peer] in Hw, Hr.
         split; [by rewrite Hw|]. rewrite Hr. simpl. lia. }
    destruct (len32 data =? b_length b); cbn [negb andb] in *.
    2: { inversion H; subst. split; [reflexivity|]. split; [done|simpl; lia]. }
    unfold copy_at in H.
    destruct (Nat.ltb_spec (length (pieceData st))
                (Z.to_nat (wrap32 (b_index b * blockSize)))) as [Hlt|Hle].
    { rewrite (proj2 (Nat.leb_gt _ _)) by lia.
      inversion H; subst. split; [reflexivity|]. split; [done|simpl; lia]. }
    rewrite (proj2 (Nat.leb_le _ _)) by lia. cbn [andb].
    destruct (files_wr (e n)) as [err|].
    { inversion H; subst. split; [reflexivity|]. split; [done|simpl; lia]. }
    destruct (IH _ _ _ _ H) as [Hw Hr]. cbn [pieceData dl_peer] in Hw, Hr.
    assert (Hlen : length (take (Z.to_nat (wrap32 (b_index b * blockSize))) (pieceData st)
                           ++ take (length (pieceData st)
                                    - Z.to_nat (wrap32 (b_index b * blockSize))) data
                           ++ drop (Z.to_nat (wrap32 (b_index b * blockSize)) + length data)
                                (pieceData st))
                   = length (pieceData st)).
    { rewrite !length_app, !length_take, length_drop. lia. }
    rewrite Hlen in Hw, Hr. split; [by rewrite Hw|]. rewrite Hr. simpl. lia.
Qed.

(** X8: [downloadPiece] writes nothing after what [beInterested] wrote
    when that failed or the peer did not unchoke.  Else it writes one
    REQUEST per block in the order of [piece.blocks], each for the index of
    the piece, the offset [b.index * blockSize] and the length of the
    block, for the blocks the loop goes past and for the first block that
    stops it, and for no block after that one; it returns [nil] only when
    no block stopped the loop.  The piece buffer it hashes has the length
    of the piece. *)
Theorem downloadPiece_requests e p pc p1 pc1 r :
  downloadPiece e p pc = (p1, pc1, r) ->
  let p0 := (beInterested (interested_wr e) p).1.1 in
  let went := passing (block_envs e) (Z.to_nat (p_length pc)) (p_blocks pc) 0 in
  ((beInterested (interested_wr e) p).2 <> None \/ unchoke_wait e = TimedOut ->
   written p1 = written p0) /\
  ((beInterested (interested_wr e) p).2 = None -> unchoke_wait e = Arrived tt ->
   written p1
   = written p0 ++ request_frames (p_index pc) (take (S went) (p_blocks pc)) /\
   (r = Ok tt -> went = length (p_blocks pc)) /\
   ((went < length (p_blocks pc))%nat -> r <> Ok tt /\ p_downloaded pc1 = p_downloaded pc)) /\
  (forall buf, assembled e p pc = Some buf -> length buf = Z.to_nat (p_length pc)).
Proof.
  intros H p0 went. subst p0 went. unfold downloadPiece in H. unfold assembled.
  destruct (beInterested (interested_wr e) p) as [[p0 ch] [err|]]; cbn [fst snd].
  { inversion H; subst. split; [done|]. split; [done|done]. }
  destruct (unchoke_wait e) as [[]|].
  2: { inversion H; subst. split; [done|]. split; [done|done]. }
  destruct (fetch e p0 pc) as [st r0] eqn:E. unfold fetch in E.
  destruct (request_blocks_stops _ _ _ _ _ _ _ E) as [Hw Hr].
  destruct (request_blocks_writes _ _ _ _ _ _ _ E) as (Hlen & _).
  cbn [pieceData dl_peer] in Hlen, Hw, Hr. rewrite repeat_length in Hlen, Hw, Hr.
  assert (Hwr : written (dl_peer st)
                = written p0
                  ++ request_frames (p_index pc)
                       (take (S (passing (block_envs e) (Z.to_nat (p_length pc))
                                   (p_blocks pc) 0)) (p_blocks pc)))
    by (rewrite Hw; apply written_writes).
  split; [by intros [?|?]|]. split.
  - intros _ _. destruct r0 as [[]| |].
    + pose proof (proj1 Hr eq_refl) as Hall.
      destruct (negb _); inversion H; subst; (split; [exact Hwr|]); (split; [done|lia]).
    + inversion H; subst. split; [exact Hwr|]. split; [done|]. by intros _.
    + inversion H; subst. split; [exact Hwr|]. split; [done|]. by intros _.
  - destruct r0 as [[]| |]; [|done|done]. by intros buf [= <-].
Qed.

Lemma downloadPiece_requests_witness :
  exists p1 pc1,
    downloadPiece BlockExamples.short_second newPeerConn BlockExamples.three_blocks
    = (p1, pc1, Fail (ErrNew "unexpected block length")) /\
    written p1 = [message_frame msgInterested;
                  request_frame 5 0 blockSize; request_frame 5 blockSize blockSize].
Proof.
  destruct (downloadPiece BlockExamples.short_second newPeerConn BlockExamples.three_blocks)
    as [[p1 pc1] r] eqn:E.
  destruct (proj1 (proj2 (downloadPiece_requests _ _ _ _ _ _ E)) eq_refl eq_refl)
    as (Hw & _ & _).
  assert (r = Fail (ErrNew "unexpected block length")) as ->
    by (vm_compute in E; by inversion E).
  exists p1, pc1. split; [reflexivity|]. exact Hw.
Defined.

Lemma tiles_nonneg i bs len : tiles i bs len -> 0 <= len.
Proof.
  revert i len. induction bs as [|b bs IH]; intros i len H; simpl in H; [lia|].
  destruct H as (_ & Hb & _ & Ht). apply IH in Ht. lia.
Qed.

Lemma arrivals_cons e n k data :
  block_wait (e n) = Arrived data ->
  arrivals e n (S k) = data ++ arrivals e (S n) k.
Proof. intros H. unfold arrivals. cbn [seq map]. rewrite concat_cons. by rewrite H. Qed.

(** When the blocks tile the piece and each one arrives with its length,
    the loop fills the piece buffer with what arrived, in order. *)
Lemma request_blocks_served e idx bs : forall n i len done p bf,
  tiles i bs len -> all_served e n bs ->
  (bs <> [] -> Z.of_nat (length done) = i * blockSize /\
               0 <= i /\ i * blockSize + len < 2 ^ 32) ->
  exists st',
    request_blocks e idx bs n
      {| dl_peer := p; dl_received := bf;
         pieceData := done ++ repeat x00 (Z.to_nat len) |} = (st', Ok tt) /\
    pieceData st' = done ++ arrivals e n (length bs).
Proof.
  induction bs as [|b bs IH]; intros n i len done p bf Ht Hs Hinv.
  - simpl in Ht. subst len. eexists. split; [reflexivity|]. reflexivity.
  - destruct Ht as (Hidx & Hlen & Hfull & Ht).
    destruct Hs as (Hrq & Hfw & (data & Hbw & Hdl) & Hs).
    destruct Hinv as (Hdone & Hi & Hbound); [done|].
    pose proof (tiles_nonneg _ _ _ Ht) as Hrest.
    unfold blockSize in Hlen, Hdone, Hbound, Hfull.
    assert (Hoff : wrap32 (b_index b * blockSize) = Z.of_nat (length done)).
    { rewrite Hidx, Hdone. unfold blockSize. apply wrap32_small. lia. }
    assert (Hcopy : copy_at (Z.of_nat (length done)) data
                      (done ++ repeat x00 (Z.to_nat len))
                    = Ok ((done ++ data) ++ repeat x00 (Z.to_nat (len - b_length b)))).
    { unfold copy_at. rewrite Nat2Z.id, length_app, repeat_length.
      destruct (Nat.ltb_spec (length done + Z.to_nat len) (length done)); [lia|].
      f_equal. rewrite take_app_length.
      rewrite take_ge by lia.
      replace (Z.to_nat len) with (length data + Z.to_nat (len - b_length b))%nat by lia.
      rewrite repeat_app, drop_app_add.
      rewrite drop_app_length' by (by rewrite repeat_length).
      by rewrite <- app_assoc. }
    destruct (IH (S n) (i + 1) (len - b_length b) (done ++ data)
                (write (request_frame idx (wrap32 (b_index b * blockSize)) (b_length b)) p)
                (SetBit bf (wrap32 (Z.of_nat n))) Ht Hs) as (st' & E & Hbuf).
    { intros Hne. specialize (Hfull Hne). rewrite length_app. unfold blockSize. lia. }
    exists st'. split.
    + simpl request_blocks. cbn [sendRequest dl_peer dl_received pieceData].
      rewrite Hrq, Hbw.
      assert (Hl32 : len32 data = b_length b).
      { unfold len32. rewrite Hdl. apply wrap32_small. lia. }
      rewrite Hl32, Z.eqb_refl. cbn [negb]. rewrite <- Hoff in Hcopy.
      rewrite Hcopy, Hfw. exact E.
    + rewrite Hbuf. cbn [length]. rewrite (arrivals_cons _ _ _ _ Hbw).
      by rewrite <- app_assoc.
Qed.

(** X9: when the blocks of a piece tile it (block [i] at offset
    [i * blockSize], every block but the last of [blockSize] bytes) and
    the remote unchokes and answers every request with a block of the
    length asked for, the piece buffer is what arrived, block after block;
    so when the SHA-1 of what arrived is the digest of the piece,
    [downloadPiece] returns [nil] and sets [downloaded]. *)
Theorem downloadPiece_assembles e p pc :
  tiles 0 (p_blocks pc) (p_length pc) -> p_length pc < 2 ^ 32 ->
  all_served (block_envs e) 0 (p_blocks pc) ->
  (beInterested (interested_wr e) p).2 = None ->
  unchoke_wait e = Arrived tt ->
  let data := arrivals (block_envs e) 0 (length (p_blocks pc)) in
  assembled e p pc = Some data /\
  (SHA1.Sum data = p_sha1 pc ->
   exists p1 pc1, downloadPiece e p pc = (p1, pc1, Ok tt) /\ p_downloaded pc1 = true).
Proof.
  intros Ht Hlen Hs Hb Hu data.
  unfold assembled, downloadPiece.
  destruct (beInterested (interested_wr e) p) as [[p0 ch] err]. cbn [snd] in Hb. subst err.
  rewrite Hu. unfold fetch.
  destruct (request_blocks_served (block_envs e) (p_index pc) (p_blocks pc) 0 0
              (p_length pc) [] p0 (p_bitField pc) Ht Hs) as (st' & E & Hbuf).
  { intros _. cbn. lia. }
  cbn [app] in E, Hbuf. rewrite E. fold data in Hbuf.
  split; [by rewrite Hbuf|].
  intros Hsha. cbn [p_sha1 with_received]. rewrite Hbuf.
  rewrite bool_decide_true by exact Hsha. cbn [negb].
  by do 2 eexists.
Qed.

Lemma downloadPiece_assembles_witness :
  assembled (Examples.served Examples.content) newPeerConn Examples.small_piece
  = Some Examples.content.
Proof.
  refine (proj1 (downloadPiece_assembles (Examples.served Examples.content) newPeerConn
                   Examples.small_piece _ _ _ _ _)); try reflexivity.
  - cbn. repeat split; try lia; try done.
  - cbn. repeat split; try done. by exists Examples.content.
Defined.

(** ** What the lifetime of a peer keeps *)

Lemma beInterested_fields wr p :
  amChoking (beInterested wr p).1.1 = amChoking p /\
  amInterested (beInterested wr p).1.1 = amInterested p /\
  (onceInterested p = true -> onceInterested (beInterested wr p).1.1 = true) /\
  (peerChoking p = true -> onceInterested (beInterested wr p).1.1 = true).
Proof.
  unfold beInterested.
  destruct (peerChoking p); cbn [negb]; [|done].
  destruct (onceInterested p) eqn:Ho; cbn [fst]; done.
Qed.

Lemma downloadPiece_fields e p pc :
  amChoking (downloadPiece e p pc).1.1 = amChoking p /\
  amInterested (downloadPiece e p pc).1.1 = amInterested p /\
  (onceInterested p = true -> onceInterested (downloadPiece e p pc).1.1 = true).
Proof.
  unfold downloadPiece.
  destruct (beInterested_fields (interested_wr e) p) as (Ha & Hi & Ho & _).
  destruct (beInterested (interested_wr e) p) as [[p0 ch] [err|]]; cbn [fst] in *; [done|].
  destruct (unchoke_wait e) as [[]|]; [|done].
  destruct (fetch e p0 pc) as [st r] eqn:E. unfold fetch in E.
  destruct (request_blocks_writes _ _ _ _ _ _ _ E) as (_ & k & _ & Hw & _).
  cbn [dl_peer] in Hw.
  destruct (writes_fields (request_frames (p_index pc) (take k (p_blocks pc))) p0)
    as (_ & Ho' & Ha' & Hi' & _).
  rewrite <- Hw in Ho', Ha', Hi'.
  assert (amChoking (dl_peer st) = amChoking p /\ amInterested (dl_peer st) = amInterested p /\
          (onceInterested p = true -> onceInterested (dl_peer st) = true)) as Hst.
  { rewrite Ha', Hi', Ho'. done. }
  destruct r as [[]| |]; [|done|done]. by destruct (negb _).
Qed.

Lemma step_fields t st o :
  amChoking (peer (lifetime_step t st o).1) = amChoking (peer st.1) /\
  amInterested (peer (lifetime_step t st o).1) = amInterested (peer st.1) /\
  (onceInterested (peer st.1) = true ->
   onceInterested (peer (lifetime_step t st o).1) = true).
Proof.
  destruct st as [s c]. cbn [fst]. destruct o; cbn [lifetime_step].
  - destruct (run_iter t s c) as [es [[s' c']| |]] eqn:E; [|done|done]. cbn [fst].
    destruct (run_iter_written _ _ _ _ _ _ E) as [_ Ho]. rewrite Ho.
    destruct (run_iter_cases _ _ _ _ _ _ E) as [[-> ->]|[_ Hk]]; [done|].
    destruct Hk as [(-> & _)|[(-> & _)|[(v & -> & _)|[(i & -> & _)|
      [(_ & -> & _)|[(-> & _)|(-> & _)]]]]]]; done.
  - destruct (beInterested_fields wr (peer s)) as (? & ? & ? & _). done.
  - done.
  - done.
  - apply downloadPiece_fields.
Qed.

Lemma lifetime_fields t ops : forall st,
  amChoking (peer (lifetime t ops st).1) = amChoking (peer st.1) /\
  amInterested (peer (lifetime t ops st).1) = amInterested (peer st.1) /\
  (onceInterested (peer st.1) = true ->
   onceInterested (peer (lifetime t ops st).1) = true).
Proof.
  induction ops as [|o ops IH]; intros st; [done|].
  cbn [lifetime fold_left].
  destruct (IH (lifetime_step t st o)) as (Ha & Hi & Ho).
  destruct (step_fields t st o) as (Ha' & Hi' & Ho').
  unfold lifetime in *. rewrite Ha, Hi, Ha', Hi'. split; [done|]. split; [done|].
  intros H. by apply Ho, Ho'.
Qed.

(** X7: nothing a peer does in its lifetime changes [amChoking] or
    [amInterested]: for a peer made by [newPeerConn] we keep choking it,
    and [amInterested] stays false also after "interested" has been
    written to it. *)
Theorem own_flags_never_change t ops st :
  amChoking (peer (lifetime t ops st).1) = amChoking (peer st.1) /\
  amInterested (peer (lifetime t ops st).1) = amInterested (peer st.1) /\
  (forall c, st = (start t newPeerConn, c) ->
     amChoking (peer (lifetime t ops st).1) = true /\
     amInterested (peer (lifetime t ops st).1) = false).
Proof.
  destruct (lifetime_fields t ops st) as (Ha & Hi & _).
  split; [exact Ha|]. split; [exact Hi|].
  intros c ->. by rewrite Ha, Hi.
Qed.

Lemma own_flags_never_change_witness :
  interested_sent (peer Examples.session.1) = 1%nat /\
  amInterested (peer Examples.session.1) = false.
Proof.
  split; [by vm_compute|].
  exact (proj2 (proj2 (proj2 (own_flags_never_change Examples.small
           [BeInterested None; Iterate; BeInterested None;
            DownloadPiece (Examples.served Examples.content) Examples.small_piece]
           _)) [frame msgUnchoke []] eq_refl)).
Defined.

(** X11: the error of writing "interested" is returned once.  After one
    call of [beInterested] on a peer that chokes us, whatever that call
    returned, every later call returns the current unchoke channel and
    [nil] and writes nothing, whatever the loop and the downloaders have
    done in between. *)
Theorem beInterested_error_once t st wr0 ops wr :
  peerChoking (peer st.1) = true ->
  let p := peer (lifetime t ops (lifetime_step t st (BeInterested wr0))).1 in
  beInterested wr p = (p, unchokeC p, None).
Proof.
  intros Hc p.
  assert (Ho : onceInterested p = true).
  { apply lifetime_fields. destruct st as [s c]. cbn [lifetime_step fst peer with_peer].
    by apply beInterested_fields. }
  unfold beInterested. rewrite Ho. by destruct (peerChoking p).
Qed.

Lemma beInterested_error_once_witness :
  let st := (start Examples.small newPeerConn, [keep_alive]) in
  let p := peer (lifetime Examples.small [Iterate]
                   (lifetime_step Examples.small st
                      (BeInterested (Some (ErrTransport "broken pipe"))))).1 in
  (beInterested (Some (ErrTransport "broken pipe")) (peer st.1)).2
  = Some (ErrTransport "broken pipe") /\
  beInterested (Some (ErrTransport "broken pipe")) p = (p, unchokeC p, None).
Proof.
  intros st p. split; [reflexivity|].
  exact (beInterested_error_once Examples.small st (Some (ErrTransport "broken pipe"))
           [Iterate] (Some (ErrTransport "broken pipe")) eq_refl).
Defined.

(** ** The newest addresses stay *)

Module SupervisorMore.
Import Supervisor.

Section Queue.

Context {Peer : Type}.
Implicit Types (peers : chan Peer) (pa : Peer).

Lemma newest_all (n : nat) (xs : list Peer) : (length xs <= n)%nat -> newest n xs = xs.
Proof. intros H. unfold newest. replace (length xs - n)%nat with 0%nat by lia. apply drop_0. Qed.

Lemma newest_app (n : nat) (xs ys : list Peer) :
  newest n (newest n xs ++ ys) = newest n (xs ++ ys).
Proof.
  unfold newest. rewrite !length_app, length_drop.
  destruct (Nat.le_gt_cases (length xs) n) as [Hle|Hgt].
  - replace (length xs - n)%nat with 0%nat by lia. rewrite drop_0. f_equal. lia.
  - replace (length xs - (length xs - n) + length ys - n)%nat with (length ys) by lia.
    replace (length xs + length ys - n)%nat
      with ((length xs - n) + length ys)%nat by lia.
    rewrite <- drop_drop, (drop_app_le xs ys) by lia. reflexivity.
Qed.

Lemma enqueue_newest pa peers :
  bounded peers -> (0 < cap peers)%nat ->
  enqueue pa peers = Some {| buf := newest (cap peers) (buf peers ++ [pa]); cap := cap peers |}.
Proof.
  unfold bounded, enqueue. intros Hb Hc.
  destruct (Nat.ltb_spec (length (buf peers)) (cap peers)) as [Hlt|Hge].
  - rewrite newest_all; [done|]. rewrite length_app. simpl. lia.
  - destruct (buf peers) as [|oldest waiting] eqn:E; [simpl in *; lia|].
    do 2 f_equal. unfold newest. rewrite length_app. simpl in *.
    replace (S (length waiting + 1) - cap peers)%nat with 1%nat by lia. reflexivity.
Qed.

Lemma announce_newest (l : list Peer) : forall peers,
  bounded peers -> (0 < cap peers)%nat ->
  announce l peers = Some {| buf := newest (cap peers) (buf peers ++ l); cap := cap peers |}.
Proof.
  induction l as [|pa l IH]; intros peers Hb Hc.
  - simpl. rewrite app_nil_r, newest_all by exact Hb. by destruct peers.
  - simpl. rewrite (enqueue_newest pa peers Hb Hc).
    rewrite IH; cbn [buf cap]; [|unfold bounded, newest; cbn [buf cap];
                                  rewrite length_drop, length_app; simpl; lia|exact Hc].
    rewrite newest_app, <- app_assoc. reflexivity.
Qed.

End Queue.

End SupervisorMore.

(** X12: whatever has been queued and taken before, when the supervisor
    queues the addresses of an announce the channel holds afterwards the
    newest [NumWant] of the addresses that waited and the ones announced,
    oldest first.  With the connecter taking nothing while the loop
    runs, the loop does not block. *)
Theorem announce_keeps_newest {Peer : Type} (acts : list (Supervisor.action Peer))
    (peerAddrs : list Peer) :
  Supervisor.announce peerAddrs (Supervisor.peers_after acts)
  = Some {| Supervisor.buf :=
              newest Supervisor.NumWant
                (Supervisor.buf (Supervisor.peers_after acts) ++ peerAddrs);
            Supervisor.cap := Supervisor.NumWant |}.
Proof.
  destruct (SupervisorFacts.bounded_peers_after acts) as [Hb Hc].
  assert (H0 : (0 < Supervisor.cap (Supervisor.peers_after acts))%nat)
    by (rewrite Hc; unfold Supervisor.NumWant; lia).
  pose proof (SupervisorMore.announce_newest peerAddrs _ Hb H0) as H.
  rewrite Hc in H. exact H.
Qed.

(** ** A new transfer *)

Lemma repeat_lookup {A} (x y : A) n i : repeat x n !! i = Some y -> y = x.
Proof.
  revert i. induction n as [|n IH]; intros i H; simpl in H; [by destruct i|].
  destruct i; [by inversion H|]. by eapply IH.
Qed.

Lemma Test_new n i : Test (newBitField n) i = false.
Proof.
  unfold Test, newBitField. cbn [Bytes Len].
  destruct (repeat x00 _ !! _) as [x|] eqn:E; [|by rewrite andb_false_r].
  apply repeat_lookup in E. subst x. change (byteZ x00) with 0.
  rewrite Z.testbit_0_l. apply andb_false_r.
Qed.

Lemma Count_new n : Count (newBitField n) = 0.
Proof.
  unfold Count.
  assert (H : forall l : list Z, filter (fun i => Test (newBitField n) i = true) l = []).
  { induction l as [|i l IH]; [done|].
    rewrite filter_cons, decide_False; [exact IH|]. by rewrite Test_new. }
  by rewrite H.
Qed.

Lemma substring_length_le n s : (String.length (substring 0 n s) <= n)%nat.
Proof.
  revert s. induction n as [|n IH]; intros [|a s]; cbn; try lia.
  specialize (IH s). lia.
Qed.

Lemma length_append s1 s2 :
  String.length (s1 ++ s2)%string = (String.length s1 + String.length s2)%nat.
Proof.
  induction s1 as [|a s1 IH]; [done|].
  change (String a s1 ++ s2)%string with (String a (s1 ++ s2)%string).
  cbn [String.length Nat.add]. by rewrite IH.
Qed.

Lemma substring_prefix n s : String.prefix (substring 0 n s) s = true.
Proof.
  revert s. induction n as [|n IH]; intros [|a s]; cbn; try done.
  destruct (Ascii.ascii_dec a a); [apply IH|done].
Qed.

Lemma prefix_refl s : String.prefix s s = true.
Proof.
  induction s as [|a s IH]; cbn; [done|].
  destruct (Ascii.ascii_dec a a); [exact IH|done].
Qed.

(** X13: [newTransfer] gives up on an error of the tracker before it
    touches the disk.  A transfer it returns has nothing downloaded:
    [Downloaded] is 0, [Uploaded] is 0 and [Left] is the total length; its
    bit field has one bit per piece, and its logger is named after at most
    the first eight bytes of the name of the torrent. *)
Theorem newTransfer_fresh newPieces tracker_New info where_ os d :
  - 2 ^ 63 <= Meta.InfoTotalLength info < 2 ^ 63 ->
  (forall err, tracker_New = Some err ->
     newTransfer newPieces tracker_New info where_ os d = (d, Fail err)) /\
  (forall d' t name,
     newTransfer newPieces tracker_New info where_ os d = (d', Ok (t, name)) ->
     Downloaded t = 0 /\ Uploaded t = 0 /\ Left t = Meta.InfoTotalLength info /\
     Len (t_bitField t) = len32 (pieces t) /\
     (String.length name <= 17)%nat /\
     exists short, name = ("download " ++ short)%string /\
                   String.prefix short (Meta.Name info) = true).
Proof.
  intros Hrange. split.
  - intros err ->. reflexivity.
  - intros d' t name H. unfold newTransfer in H.
    destruct tracker_New; [discriminate|].
    destruct (allocate info where_ os d) as [d1 [files_| |]]; try discriminate.
    inversion H; subst. clear H.
    assert (HD : Downloaded
                   {| pieces := newPieces info files_;
                      t_bitField := newBitField (len32 (newPieces info files_));
                      PieceLength := Meta.InfoPieceLength info;
                      TotalLength := Meta.InfoTotalLength info |} = 0).
    { unfold Downloaded. cbn [t_bitField PieceLength]. rewrite Count_new. reflexivity. }
    split; [exact HD|]. split; [reflexivity|].
    split; [unfold Left; rewrite HD; cbn [TotalLength]; rewrite Z.sub_0_r;
            by apply wrap_int64_small|].
    split; [reflexivity|].
    destruct (Nat.ltb_spec 8 (String.length (Meta.Name info))) as [Hlong|Hshort].
    + split.
      * rewrite length_append. cbn [String.length].
        pose proof (substring_length_le 8 (Meta.Name info)). lia.
      * eexists. split; [reflexivity|]. apply substring_prefix.
    + split; [rewrite length_append; cbn [String.length]; lia|].
      eexists. split; [reflexivity|]. apply prefix_refl.
Qed.

Lemma newTransfer_fresh_witness :
  exists d' t,
    newTransfer (fun _ _ => [Examples.small_piece]) None FileExamples.one_file "/tmp"
      (fun _ => FileExamples.no_error) FileExamples.empty_disk
    = (d', Ok (t, "download ubuntu-1"%string)) /\
    Downloaded t = 0 /\ Left t = 4.
Proof.
  destruct (newTransfer (fun _ _ => [Examples.small_piece]) None FileExamples.one_file "/tmp"
              (fun _ => FileExamples.no_error) FileExamples.empty_disk)
    as [d' [[t name]| |]] eqn:E; try (vm_compute in E; discriminate E).
  assert (name = "download ubuntu-1"%string) as -> by (vm_compute in E; by inversion E).
  exists d', t. split; [reflexivity|].
  destruct (proj2 (newTransfer_fresh _ _ FileExamples.one_file _ _ _
                     ltac:(by vm_compute)) d' t _ E) as (HD & _ & HL & _).
  split; [exact HD|exact HL].
Defined.

(** ** Paths *)

(** [Clean] drops empty elements and ".", lets ".." take back the element
    before it, keeps it at the start of a path that is not rooted, and
    gives "." for an empty path. *)
Lemma Clean_examples :
  map filepath.Clean
    ["abc//./../def"; "abc/def/../../../ghi/jkl/../../../mno"; "/../abc"; ""; "a/b/"]%string
  = ["def"; "../../mno"; "/abc"; "."; "a/b"]%string.
Proof. reflexivity. Qed.

Lemma Dir_examples :
  map filepath.Dir ["/tmp/album/cd1/a.flac"; "/x"; "x"; "a/../b"]%string
  = ["/tmp/album/cd1"; "/"; "."; "."]%string.
Proof. reflexivity. Qed.

(** Two entries of a torrent whose paths differ as lists can be one file:
    the second entry then cuts the file the first one made. *)
Lemma allocate_same_file :
  let info := {| Meta.Name := "album"; Meta.SingleLength := 0;
                 Meta.Files := [{| Meta.Path := ["x"]; Meta.Length := 10 |};
                                {| Meta.Path := ["."; "x"]; Meta.Length := 3 |}];
                 Meta.MultiFile := true; Meta.InfoPieceLength := 16384;
                 Meta.InfoTotalLength := 13 |} in
  file_paths ["/tmp"; "album"]%string (Meta.Files info)
  = ["/tmp/album/x"; "/tmp/album/x"]%string /\
  OS.files (allocate info "/tmp" (fun _ => FileExamples.no_error)
              FileExamples.empty_disk).1 !! "/tmp/album/x"%string = Some 3.
Proof. split; [reflexivity|]. by vm_compute. Qed.

(** ** Allocating the files *)












(** ** Blocks that do not come *)

Lemma request_blocks_timeouts e idx bs : forall n st,
  (forall j, request_wr (e j) = None /\ block_wait (e j) = TimedOut) ->
  request_blocks e idx bs n st
  = ({| dl_peer := writes (request_frames idx bs) (dl_peer st);
        dl_received := dl_received st; pieceData := pieceData st |}, Ok tt).
Proof.
  induction bs as [|b bs IH]; intros n st He; [by destruct st|].
  simpl request_blocks. cbn [sendRequest]. destruct (He n) as [-> ->].
  rewrite IH by exact He. reflexivity.
Qed.

(** X10: a block that does not come within the minute is passed over, not
    asked for again.  When the remote unchokes and then sends nothing,
    [downloadPiece] still writes a REQUEST for every block, marks no block
    as received, hashes a piece buffer of zero bytes, and returns "received
    corrupt piece" unless that is what the digest is of; [downloaded] keeps
    its value. *)
Theorem downloadPiece_silent_remote e p pc :
  (beInterested (interested_wr e) p).2 = None ->
  unchoke_wait e = Arrived tt ->
  (forall j, request_wr (block_envs e j) = None /\ block_wait (block_envs e j) = TimedOut) ->
  SHA1.Sum (repeat x00 (Z.to_nat (p_length pc))) <> p_sha1 pc ->
  assembled e p pc = Some (repeat x00 (Z.to_nat (p_length pc))) /\
  downloadPiece e p pc
  = (writes (request_frames (p_index pc) (p_blocks pc))
       (beInterested (interested_wr e) p).1.1,
     pc, Fail (ErrNew "received corrupt piece")).
Proof.
  intros Hb Hu He Hsha. unfold assembled, downloadPiece.
  destruct (beInterested (interested_wr e) p) as [[p0 ch] err]. cbn [fst snd] in *. subst err.
  rewrite Hu. unfold fetch. rewrite request_blocks_timeouts by exact He.
  cbn [pieceData dl_peer dl_received p_sha1 with_received].
  split; [reflexivity|].
  rewrite bool_decide_false by exact Hsha. cbn [negb]. by destruct pc.
Qed.

Lemma downloadPiece_silent_remote_witness :
  let e := {| interested_wr := None; unchoke_wait := Arrived tt;
              block_envs := fun _ => {| request_wr := None; block_wait := TimedOut;
                                        files_wr := None |} |} in
  downloadPiece e newPeerConn Examples.small_piece
  = (writes [request_frame 0 0 4] (write (message_frame msgInterested)
                                     (set_onceInterested true newPeerConn)),
     Examples.small_piece, Fail (ErrNew "received corrupt piece")).
Proof.
  intros e.
  refine (proj2 (downloadPiece_silent_remote e newPeerConn Examples.small_piece
                   eq_refl eq_refl (fun _ => conj eq_refl eq_refl) _)).
  vm_compute. congruence.
Defined.
